(** * NodeModal: the node editor of the graph view

    A shallow embedding of [src/features/modals/NodeModal/index.tsx]:
    [normalizeNodeData], [jsonPathToString], and the [handleEdit],
    [handleCancel] and [handleSave] handlers of the [NodeModal] component
    together with the effect that resets the editor.

    The component is glue between the JavaScript runtime ([JSON.parse],
    [JSON.stringify], [String.prototype.trim], a regular expression, object
    spread), three stores ([useJson], [useGraph], [useFile]) and the
    [jsonc-parser] package ([modify], [applyEdits]).  What the language
    standard fixes is written out below; what lives outside this module
    (the number type, the prototype chain, [jsonc-parser], the graph
    builder) is a field of the class [Runtime]. *)

From Stdlib Require Import List NArith ZArith String Ascii Bool Lia.
From Stdlib Require Import DecimalN DecimalZ.
Import ListNotations.

Local Open Scope N_scope.
Set Warnings "-register-all".

(** ** Strings

    A JavaScript string is a sequence of UTF-16 code units. *)

Definition jstr := list N.

(** Literals are written [str "..."]; every character of the literal is
    one code unit. *)
Definition str (s : string) : jstr := map N_of_ascii (list_ascii_of_string s).

Fixpoint jstr_eqb (a b : jstr) : bool :=
  match a, b with
  | [], [] => true
  | x :: a', y :: b' => (x =? y) && jstr_eqb a' b'
  | _, _ => false
  end.

Definition QUOTE : N := 34.
Definition BACKSLASH : N := 92.
Definition LF : N := 10.
Definition SPACE : N := 32.

(** A text written with ['] where it has a double quote. *)
Definition jtext (s : string) : jstr :=
  map (fun c => if c =? 39 then QUOTE else c) (str s).

Definition is_digit (c : N) : bool := (48 <=? c) && (c <=? 57).

Arguments is_digit : simpl never.
Arguments N.eqb : simpl never.
Arguments N.leb : simpl never.
Arguments N.ltb : simpl never.

(** The decimal digits of a natural number, most significant first. *)
Fixpoint uint_units (d : Decimal.uint) : jstr :=
  match d with
  | Decimal.Nil => []
  | Decimal.D0 r => 48 :: uint_units r
  | Decimal.D1 r => 49 :: uint_units r
  | Decimal.D2 r => 50 :: uint_units r
  | Decimal.D3 r => 51 :: uint_units r
  | Decimal.D4 r => 52 :: uint_units r
  | Decimal.D5 r => 53 :: uint_units r
  | Decimal.D6 r => 54 :: uint_units r
  | Decimal.D7 r => 55 :: uint_units r
  | Decimal.D8 r => 56 :: uint_units r
  | Decimal.D9 r => 57 :: uint_units r
  end.

Definition N_to_jstr (n : N) : jstr := uint_units (N.to_uint n).

(** [ToString] of an integer: an optional minus sign and the digits. *)
Definition Z_to_jstr (z : Z) : jstr :=
  match Z.to_int z with
  | Decimal.Pos d => uint_units d
  | Decimal.Neg d => 45 :: uint_units d
  end.

(** The value of a string of decimal digits. *)
Fixpoint digits_value (acc : N) (s : jstr) : option N :=
  match s with
  | [] => Some acc
  | c :: r => if is_digit c then digits_value (10 * acc + (c - 48)) r else None
  end.

(** An array index is a property key that is the canonical decimal
    rendering of an integer in [0, 2^32 - 2]. *)
Definition array_index (k : jstr) : option N :=
  match k with
  | [] => None
  | _ =>
    match digits_value 0 k with
    | Some n => if jstr_eqb (N_to_jstr n) k && (n <? 4294967295) then Some n else None
    | None => None
    end
  end.

(** ** Ordinary objects: own properties

    The own enumerable data properties of an object, in the order in which
    the runtime enumerates them: array indices in ascending order first,
    then the other keys in the order of their creation. *)

Section Props.
Context {V : Type}.

Definition props := list (jstr * V).

(** Own property lookup.  The keys of an object are distinct; on a list
    with a repeated key the last entry is the one that counts. *)
Fixpoint lookup (k : jstr) (ps : props) : option V :=
  match ps with
  | [] => None
  | (k', v) :: r =>
    match lookup k r with
    | Some w => Some w
    | None => if jstr_eqb k' k then Some v else None
    end
  end.

Definition keys (ps : props) : list jstr := map fst ps.

(** [replace_or_append k v ps]: a key that is not an array index keeps its
    place when present, and is created last otherwise. *)
Fixpoint replace_or_append (k : jstr) (v : V) (ps : props) : props :=
  match ps with
  | [] => [(k, v)]
  | (k', v') :: r =>
    if jstr_eqb k' k then (k, v) :: r else (k', v') :: replace_or_append k v r
  end.

(** [replace_or_insert i k v ps]: an array index [k] of value [i] keeps its
    place when present, and is created before the first key that is a
    greater index or no index otherwise. *)
Fixpoint replace_or_insert (i : N) (k : jstr) (v : V) (ps : props) : props :=
  match ps with
  | [] => [(k, v)]
  | (k', v') :: r =>
    if jstr_eqb k' k then (k, v) :: r
    else match array_index k' with
         | Some j => if j <? i then (k', v') :: replace_or_insert i k v r
                     else (k, v) :: (k', v') :: r
         | None => (k, v) :: (k', v') :: r
         end
  end.

(** [CreateDataProperty] on an ordinary object: what [JSON.parse] and
    object spread use to set a property. *)
Definition define_own (k : jstr) (v : V) (ps : props) : props :=
  match array_index k with
  | Some i => replace_or_insert i k v ps
  | None => replace_or_append k v ps
  end.

Definition define_all (kvs : props) (ps : props) : props :=
  fold_left (fun acc kv => define_own (fst kv) (snd kv) acc) kvs ps.

(** Well-formed property lists: [key_before a b] for every [a] that
    stands before [b]. *)
Definition key_before (a b : jstr) : Prop :=
  match array_index a, array_index b with
  | Some i, Some j => i < j
  | Some _, None => True
  | None, Some _ => False
  | None, None => a <> b
  end.

Inductive wf_keys : list jstr -> Prop :=
| wf_nil : wf_keys []
| wf_cons k ks : Forall (key_before k) ks -> wf_keys ks -> wf_keys (k :: ks).

Definition wf_props (ps : props) : Prop := wf_keys (keys ps).
End Props.

Arguments props V : clear implicits.

(** ** Data model *)

(** Values the handlers see: the JSON values, [undefined], and the values
    of the runtime that a property lookup can reach through the prototype
    chain (functions and prototype objects), which are the host's. *)
Inductive value (number host : Type) : Type :=
| VUndef
| VNull
| VBool (b : bool)
| VNum (n : number)
| VStr (s : jstr)
| VArr (elems : list (value number host))
| VObj (ps : list (jstr * value number host))
| VHost (h : host).

Arguments VUndef {number host}.
Arguments VNull {number host}.
Arguments VBool {number host} b.
Arguments VNum {number host} n.
Arguments VStr {number host} s.
Arguments VArr {number host} elems.
Arguments VObj {number host} ps.
Arguments VHost {number host} h.

(** Modelled from the spec: the declarations of [NodeData] and of its rows
    ([types/graph]) are not part of the sources.  A row has an optional
    key, an optional scalar value and a type tag; a path segment is a
    string (object key) or an integer (array index); a node has an
    identity, a path and its rows. *)
Inductive scalar (number : Type) : Type :=
| SUndef
| SNull
| SBool (b : bool)
| SNum (n : number)
| SStr (s : jstr).

Arguments SUndef {number}.
Arguments SNull {number}.
Arguments SBool {number} b.
Arguments SNum {number} n.
Arguments SStr {number} s.

Record NodeRow (number : Type) : Type := mkRow {
  key : option jstr;
  value_ : scalar number;
  type : jstr
}.

Arguments mkRow {number} key value_ type.
Arguments key {number} n.
Arguments value_ {number} n.
Arguments type {number} n.

Inductive segment : Type :=
| SegKey (s : jstr)
| SegIdx (i : Z).

Definition JSONPath := list segment.

Record NodeData (number : Type) : Type := mkNode {
  id : jstr;
  text : list (NodeRow number);
  path : option JSONPath
}.

Arguments mkNode {number} id text path.
Arguments id {number} n.
Arguments text {number} n.
Arguments path {number} n.

(** The outcome of a call that can throw. *)
Inductive result (E A : Type) : Type :=
| Ok (a : A)
| Throw (e : E).

Arguments Ok {E A} a.
Arguments Throw {E A} e.

(** The formatting options that [modify] is given. *)
Record FormattingOptions : Type := mkFormatting {
  insertSpaces : bool;
  tabSize : N
}.

(** ** The runtime outside this module *)

Class Runtime : Type := {
  (** Numbers are IEEE doubles; the module only converts them. *)
  number : Type;
  (** [Number(s)] on a decimal literal, which is also the value
      [JSON.parse] gives a number token. *)
  StringToNumber : jstr -> number;
  (** [String(n)]. *)
  NumberToString : number -> jstr;
  isFinite : number -> bool;
  (** Functions and prototype objects. *)
  host : Type;
  (** [v[k]] when [k] is no own JSON property of [v]: the length of an
      array or a string, and the prototype chain.  [None] when the lookup
      throws. *)
  host_get : value number host -> jstr -> option (value number host);
  (** [h && typeof h === "object" && !Array.isArray(h)]. *)
  host_isObject : host -> bool;
  (** The own enumerable properties of a host object. *)
  host_ownProps : host -> props (value number host);
  (** Error values. *)
  exn : Type;
  (** [jsonc-parser]: the edits of [modify] and what [applyEdits] makes of
      them. *)
  edit : Type;
  modify : jstr -> JSONPath -> value number host -> FormattingOptions ->
           result exn (list edit);
  applyEdits : jstr -> list edit -> result exn jstr;
  (** The graph builder that [useJson.setJson] runs on the new text. *)
  buildGraph : jstr -> list (NodeData number)
}.

Section Modal.
Context {R : Runtime}.

Definition val : Type := value number host.

(** ** [JSON.parse]

    The JSON grammar of ECMA-404, read in two passes that are both
    structural: a lexer that is a transducer over the code units, and a
    parser that is a pushdown automaton over the tokens.  [None] is the
    [SyntaxError]. *)

Inductive token : Type :=
| TLBrace | TRBrace | TLBrack | TRBrack | TColon | TComma
| TString (s : jstr)
| TNumber (lit : jstr)
| TWord (w : jstr).

Definition is_json_ws (c : N) : bool :=
  (c =? 9) || (c =? 10) || (c =? 13) || (c =? 32).

Definition is_num_char (c : N) : bool :=
  is_digit c || (c =? 43) || (c =? 45) || (c =? 46) || (c =? 101) || (c =? 69).

Definition is_lower (c : N) : bool := (97 <=? c) && (c <=? 122).

Definition hex_value (c : N) : option N :=
  if is_digit c then Some (c - 48)
  else if (97 <=? c) && (c <=? 102) then Some (c - 87)
  else if (65 <=? c) && (c <=? 70) then Some (c - 55)
  else None.

Fixpoint skip_digits (s : jstr) : jstr :=
  match s with
  | c :: r => if is_digit c then skip_digits r else s
  | [] => []
  end.

(** [digits1 s]: one digit or more, then the rest. *)
Definition digits1 (s : jstr) : option jstr :=
  match s with
  | c :: r => if is_digit c then Some (skip_digits r) else None
  | [] => None
  end.

Definition int_part (s : jstr) : option jstr :=
  match s with
  | c :: r => if c =? 48 then Some r else digits1 s
  | [] => None
  end.

Definition frac_part (s : jstr) : option jstr :=
  match s with
  | c :: r => if c =? 46 then digits1 r else Some s
  | [] => Some s
  end.

Definition exp_part (s : jstr) : option jstr :=
  match s with
  | c :: r =>
    if (c =? 101) || (c =? 69) then
      match r with
      | d :: r' => if (d =? 43) || (d =? 45) then digits1 r' else digits1 r
      | [] => None
      end
    else Some s
  | [] => Some s
  end.

Definition opt_minus (s : jstr) : jstr :=
  match s with
  | c :: r => if c =? 45 then r else s
  | [] => s
  end.

(** A number token: an optional minus sign; a zero, or a non-zero digit
    and digits; optionally a point and one digit or more; optionally an
    exponent mark, a sign and one digit or more. *)
Definition is_json_number (s : jstr) : bool :=
  match int_part (opt_minus s) with
  | Some s1 =>
    match frac_part s1 with
    | Some s2 => match exp_part s2 with Some [] => true | _ => false end
    | None => false
    end
  | None => false
  end.

Inductive lmode : Type :=
| LDefault
| LStr (acc : jstr)
| LEsc (acc : jstr)
| LHex (acc : jstr) (more : nat) (v : N)
| LNum (acc : jstr)
| LWord (acc : jstr).

(** A code unit read between tokens. *)
Definition lex_start (c : N) : option (list token * lmode) :=
  if is_json_ws c then Some ([], LDefault)
  else if c =? 123 then Some ([TLBrace], LDefault)
  else if c =? 125 then Some ([TRBrace], LDefault)
  else if c =? 91 then Some ([TLBrack], LDefault)
  else if c =? 93 then Some ([TRBrack], LDefault)
  else if c =? 58 then Some ([TColon], LDefault)
  else if c =? 44 then Some ([TComma], LDefault)
  else if c =? QUOTE then Some ([], LStr [])
  else if is_digit c || (c =? 45) then Some ([], LNum [c])
  else if is_lower c then Some ([], LWord [c])
  else None.

Definition lex_escape (c : N) : option N :=
  if c =? QUOTE then Some QUOTE
  else if c =? BACKSLASH then Some BACKSLASH
  else if c =? 47 then Some 47
  else if c =? 98 then Some 8
  else if c =? 102 then Some 12
  else if c =? 110 then Some 10
  else if c =? 114 then Some 13
  else if c =? 116 then Some 9
  else None.

Definition number_token (acc : jstr) : option token :=
  let lit := rev acc in
  if is_json_number lit then Some (TNumber lit) else None.

Definition emit_then_start (t : token) (c : N) : option (list token * lmode) :=
  match lex_start c with
  | Some (ts, m) => Some (t :: ts, m)
  | None => None
  end.

Definition lex_step (m : lmode) (c : N) : option (list token * lmode) :=
  match m with
  | LDefault => lex_start c
  | LStr acc =>
    if c =? QUOTE then Some ([TString (rev acc)], LDefault)
    else if c =? BACKSLASH then Some ([], LEsc acc)
    else if c <? 32 then None
    else Some ([], LStr (c :: acc))
  | LEsc acc =>
    if c =? 117 then Some ([], LHex acc 3 0)
    else match lex_escape c with
         | Some u => Some ([], LStr (u :: acc))
         | None => None
         end
  | LHex acc more v =>
    match hex_value c with
    | Some d =>
      match more with
      | O => Some ([], LStr ((16 * v + d) :: acc))
      | S more' => Some ([], LHex acc more' (16 * v + d))
      end
    | None => None
    end
  | LNum acc =>
    if is_num_char c then Some ([], LNum (c :: acc))
    else match number_token acc with
         | Some t => emit_then_start t c
         | None => None
         end
  | LWord acc =>
    if is_lower c then Some ([], LWord (c :: acc))
    else emit_then_start (TWord (rev acc)) c
  end.

Definition lex_finish (m : lmode) : option (list token) :=
  match m with
  | LDefault => Some []
  | LNum acc => option_map (fun t => [t]) (number_token acc)
  | LWord acc => Some [TWord (rev acc)]
  | LStr _ | LEsc _ | LHex _ _ _ => None
  end.

Fixpoint lex (m : lmode) (s : jstr) : option (list token) :=
  match s with
  | [] => lex_finish m
  | c :: r =>
    match lex_step m c with
    | Some (ts, m') => option_map (app ts) (lex m' r)
    | None => None
    end
  end.

(** The containers that are open, innermost first. *)
Inductive frame : Type :=
| FArr (acc : list val)
| FObj (ps : props val) (k : jstr).

Inductive pstate : Type :=
| PValue (stk : list frame)
| PArrStart (stk : list frame)
| PObjStart (stk : list frame)
| PKey (ps : props val) (stk : list frame)
| PColon (ps : props val) (k : jstr) (stk : list frame)
| PArrNext (acc : list val) (stk : list frame)
| PObjNext (ps : props val) (stk : list frame)
| PDone (v : val).

(** A value is complete: it goes to the innermost open container. *)
Definition reduce (v : val) (stk : list frame) : pstate :=
  match stk with
  | [] => PDone v
  | FArr acc :: stk' => PArrNext (v :: acc) stk'
  | FObj ps k :: stk' => PObjNext (define_own k v ps) stk'
  end.

Definition word_value (w : jstr) : option val :=
  if jstr_eqb w (str "true") then Some (VBool true)
  else if jstr_eqb w (str "false") then Some (VBool false)
  else if jstr_eqb w (str "null") then Some VNull
  else None.

Definition parse_value (stk : list frame) (t : token) : option pstate :=
  match t with
  | TString s => Some (reduce (VStr s) stk)
  | TNumber lit => Some (reduce (VNum (StringToNumber lit)) stk)
  | TWord w => option_map (fun v => reduce v stk) (word_value w)
  | TLBrack => Some (PArrStart stk)
  | TLBrace => Some (PObjStart stk)
  | _ => None
  end.

Definition parse_step (st : pstate) (t : token) : option pstate :=
  match st with
  | PValue stk => parse_value stk t
  | PArrStart stk =>
    match t with
    | TRBrack => Some (reduce (VArr []) stk)
    | _ => parse_value (FArr [] :: stk) t
    end
  | PObjStart stk =>
    match t with
    | TRBrace => Some (reduce (VObj []) stk)
    | TString k => Some (PColon [] k stk)
    | _ => None
    end
  | PKey ps stk =>
    match t with
    | TString k => Some (PColon ps k stk)
    | _ => None
    end
  | PColon ps k stk =>
    match t with
    | TColon => Some (PValue (FObj ps k :: stk))
    | _ => None
    end
  | PArrNext acc stk =>
    match t with
    | TComma => Some (PValue (FArr acc :: stk))
    | TRBrack => Some (reduce (VArr (rev acc)) stk)
    | _ => None
    end
  | PObjNext ps stk =>
    match t with
    | TComma => Some (PKey ps stk)
    | TRBrace => Some (reduce (VObj ps) stk)
    | _ => None
    end
  | PDone _ => None
  end.

Fixpoint parse_tokens (st : pstate) (ts : list token) : option pstate :=
  match ts with
  | [] => Some st
  | t :: r =>
    match parse_step st t with
    | Some st' => parse_tokens st' r
    | None => None
    end
  end.

Definition JSON_parse (s : jstr) : option val :=
  match lex LDefault s with
  | Some ts =>
    match parse_tokens (PValue []) ts with
    | Some (PDone v) => Some v
    | _ => None
    end
  | None => None
  end.


(** ** [JSON.stringify] *)

Definition hex_digit (d : N) : N := if d <? 10 then 48 + d else 87 + d.

(** [\uXXXX], with lowercase digits. *)
Definition unicode_escape (c : N) : jstr :=
  [BACKSLASH; 117; hex_digit (c / 4096); hex_digit ((c / 256) mod 16);
   hex_digit ((c / 16) mod 16); hex_digit (c mod 16)].

Definition is_high (c : N) : bool := (55296 <=? c) && (c <=? 56319).
Definition is_low (c : N) : bool := (56320 <=? c) && (c <=? 57343).

Definition short_escape (c : N) : option N :=
  if c =? 8 then Some 98
  else if c =? 9 then Some 116
  else if c =? 10 then Some 110
  else if c =? 12 then Some 102
  else if c =? 13 then Some 114
  else if c =? QUOTE then Some QUOTE
  else if c =? BACKSLASH then Some BACKSLASH
  else None.

(** One code unit of a quoted string; [paired] says that it is half of a
    surrogate pair. *)
Definition quote_unit (paired : bool) (c : N) : jstr :=
  match short_escape c with
  | Some e => [BACKSLASH; e]
  | None =>
    if c <? 32 then unicode_escape c
    else if (is_high c || is_low c) && negb paired then unicode_escape c
    else [c]
  end.

Definition next_is_low (s : jstr) : bool :=
  match s with
  | d :: _ => is_low d
  | [] => false
  end.

(** [after_high]: the unit before was the high half of a pair, so this
    one is its low half. *)
Fixpoint quote_body (after_high : bool) (s : jstr) : jstr :=
  match s with
  | [] => []
  | c :: r =>
    let opens := negb after_high && is_high c && next_is_low r in
    quote_unit (after_high || opens) c ++ quote_body opens r
  end.

(** [QuoteJSONString]. *)
Definition quote (s : jstr) : jstr := QUOTE :: quote_body false s ++ [QUOTE].

Fixpoint join (sep : jstr) (parts : list jstr) : jstr :=
  match parts with
  | [] => []
  | [x] => x
  | x :: r => x ++ sep ++ join sep r
  end.

(** [JSON.stringify(v)] for a scalar; [None] is [undefined]. *)
Definition JSON_stringify_scalar (v : scalar number) : option jstr :=
  match v with
  | SUndef => None
  | SNull => Some (str "null")
  | SBool b => Some (if b then str "true" else str "false")
  | SNum n => Some (if isFinite n then NumberToString n else str "null")
  | SStr s => Some (quote s)
  end.

(** The members that [JSON.stringify] prints: a property whose value is
    [undefined] is left out. *)
Fixpoint members (ps : props (scalar number)) : list jstr :=
  match ps with
  | [] => []
  | (k, v) :: r =>
    match JSON_stringify_scalar v with
    | Some t => (quote k ++ str ": " ++ t) :: members r
    | None => members r
    end
  end.

(** [JSON.stringify(obj, null, 2)] for an object of scalars. *)
Definition JSON_stringify_object2 (ps : props (scalar number)) : jstr :=
  match members ps with
  | [] => str "{}"
  | ms => str "{" ++ [LF] ++ str "  " ++ join (str "," ++ [LF] ++ str "  ") ms
          ++ [LF] ++ str "}"
  end.

Definition segment_json (seg : segment) : jstr :=
  match seg with
  | SegKey s => quote s
  | SegIdx i => Z_to_jstr i
  end.

(** [JSON.stringify(p)] for a path; [None] is [undefined]. *)
Definition JSON_stringify_path (p : option JSONPath) : option jstr :=
  match p with
  | Some segs => Some (str "[" ++ join (str ",") (map segment_json segs) ++ str "]")
  | None => None
  end.

(** ** [jsonPathToString] (lines 27-31) *)

Definition path_segment_text (seg : segment) : jstr :=
  match seg with
  | SegIdx i => Z_to_jstr i
  | SegKey s => QUOTE :: s ++ [QUOTE]
  end.

Definition jsonPathToString (p : option JSONPath) : jstr :=
  match p with
  | None => str "$"
  | Some [] => str "$"
  | Some segs => str "$[" ++ join (str "][") (map path_segment_text segs) ++ str "]"
  end.

(** ** [normalizeNodeData] *)

(** [`${v}`] *)
Definition ToString (v : scalar number) : jstr :=
  match v with
  | SUndef => str "undefined"
  | SNull => str "null"
  | SBool b => if b then str "true" else str "false"
  | SNum n => NumberToString n
  | SStr s => s
  end.

(** [!row.key] is false for a key that is a non-empty string. *)
Definition truthy_key (k : option jstr) : bool :=
  match k with
  | Some (_ :: _) => true
  | _ => false
  end.

(** The object [obj] under construction: its own properties, and whether
    its prototype is still [Object.prototype]. *)
Record jsobject : Type := mkObj {
  has_proto : bool;
  own : props (scalar number)
}.

Definition empty_object : jsobject := mkObj true [].

(** [obj[k] = v].  A key that is not own goes through the prototype:
    [__proto__] is the accessor of [Object.prototype], whose setter
    creates no property and changes the prototype when given [null]. *)
Definition assign (k : jstr) (v : scalar number) (o : jsobject) : jsobject :=
  match lookup k (own o) with
  | Some _ => mkObj (has_proto o) (define_own k v (own o))
  | None =>
    if has_proto o && jstr_eqb k (str "__proto__") then
      match v with
      | SNull => mkObj false (own o)
      | _ => o
      end
    else mkObj (has_proto o) (define_own k v (own o))
  end.

Definition is_container (r : NodeRow number) : bool :=
  jstr_eqb (type r) (str "array") || jstr_eqb (type r) (str "object").

Definition add_row (o : jsobject) (row : NodeRow number) : jsobject :=
  if negb (is_container row) then
    match key row with
    | Some k => if truthy_key (key row) then assign k (value_ row) o else o
    | None => o
    end
  else o.

Definition rows_object (nodeRows : list (NodeRow number)) : jsobject :=
  fold_left add_row nodeRows empty_object.

Definition normalizeNodeData (nodeRows : option (list (NodeRow number))) : jstr :=
  match nodeRows with
  | None => str "{}"
  | Some [] => str "{}"
  | Some [row] =>
    if negb (truthy_key (key row)) then ToString (value_ row)
    else JSON_stringify_object2 (own (rows_object [row]))
  | Some rows => JSON_stringify_object2 (own (rows_object rows))
  end.

(** ** [handleSave]: the edit parser *)

(** [WhiteSpace] and [LineTerminator], what [trim] removes. *)
Definition is_js_ws (c : N) : bool :=
  ((9 <=? c) && (c <=? 13)) || (c =? 32) || (c =? 160) || (c =? 5760)
  || ((8192 <=? c) && (c <=? 8202)) || (c =? 8232) || (c =? 8233)
  || (c =? 8239) || (c =? 8287) || (c =? 12288) || (c =? 65279).

Fixpoint trim_start (s : jstr) : jstr :=
  match s with
  | c :: r => if is_js_ws c then trim_start r else s
  | [] => []
  end.

Definition trim (s : jstr) : jstr := rev (trim_start (rev (trim_start s))).

(** The test of the regular expression of line 66: an optional minus
    sign, digits, and optionally a point and digits, to the end. *)
Definition number_regex (s : jstr) : bool :=
  match digits1 (opt_minus s) with
  | Some [] => true
  | Some (c :: r) =>
    (c =? 46) && match digits1 r with Some [] => true | _ => false end
  | None => false
  end.

(** Lines 60-76: [parsed]. *)
Definition EditParser (editedText : jstr) : val :=
  match JSON_parse editedText with
  | Some v => v
  | None =>
    let trimmed := trim editedText in
    if number_regex trimmed then VNum (StringToNumber trimmed)
    else if jstr_eqb trimmed (str "true") || jstr_eqb trimmed (str "false")
    then VBool (jstr_eqb trimmed (str "true"))
    else if jstr_eqb trimmed (str "null") then VNull
    else VStr trimmed
  end.

(** ** [handleSave]: the merge *)

Definition ToPropertyKey (seg : segment) : jstr :=
  match seg with
  | SegKey s => s
  | SegIdx i => Z_to_jstr i
  end.

(** [cur[seg]]; [None] when it throws. *)
Definition get_prop (cur : val) (seg : segment) : option val :=
  let k := ToPropertyKey seg in
  match cur with
  | VUndef | VNull => None
  | VObj ps =>
    match lookup k ps with
    | Some v => Some v
    | None => host_get cur k
    end
  | VArr elems =>
    match option_map N.to_nat (array_index k) with
    | Some i =>
      match nth_error elems i with
      | Some v => Some v
      | None => host_get cur k
      end
    | None => host_get cur k
    end
  | VStr s =>
    match option_map N.to_nat (array_index k) with
    | Some i =>
      match nth_error s i with
      | Some c => Some (VStr [c])
      | None => host_get cur k
      end
    | None => host_get cur k
    end
  | VBool _ | VNum _ | VHost _ => host_get cur k
  end.

Definition is_nullish (v : val) : bool :=
  match v with
  | VUndef | VNull => true
  | _ => false
  end.

Fixpoint getAtPath (cur : val) (p : JSONPath) : option val :=
  match p with
  | [] => Some cur
  | seg :: r =>
    if is_nullish cur then Some VUndef
    else match get_prop cur seg with
         | Some next => getAtPath next r
         | None => None
         end
  end.

Definition isObject (v : val) : bool :=
  match v with
  | VObj _ => true
  | VHost h => host_isObject h
  | _ => false
  end.

(** The own enumerable properties that a spread copies; it is applied to
    values that pass [isObject] only. *)
Definition own_enumerable (v : val) : props val :=
  match v with
  | VObj ps => ps
  | VHost h => host_ownProps h
  | _ => []
  end.

(** [{ ...a, ...b }] *)
Definition spread2 (a b : val) : props val :=
  define_all (own_enumerable b) (define_all (own_enumerable a) []).

(** Lines 84-105: [valueToWrite]. *)
Definition MergeResolver (originalJson : jstr) (path : JSONPath) (parsed : val) : val :=
  match JSON_parse originalJson with
  | Some originalParsed =>
    match getAtPath originalParsed path with
    | Some existingValue =>
      if isObject existingValue && isObject parsed
      then VObj (spread2 existingValue parsed)
      else parsed
    | None => parsed
    end
  | None => parsed
  end.


(** ** The component and the stores *)

(** Modelled from the spec: the stores [useJson], [useGraph] and [useFile]
    are not part of the sources.  The document provider holds the text and
    replaces it as a whole, which rebuilds the node set; the selection
    provider holds the nodes and the selection; the raw-buffer mirror holds
    the contents of the text editor and its dirty flag; their setters do
    not throw.  A world is their state together with the state of the
    component. *)
Record World : Type := mkWorld {
  (** [useJson] *)
  json : jstr;
  (** [useFile] *)
  contents : jstr;
  hasChanges : bool;
  (** [useGraph] *)
  nodes : list (NodeData number);
  selectedNode : option (NodeData number);
  (** the [opened] property of the modal *)
  opened : bool;
  (** the state of the component *)
  editing : bool;
  editedText : jstr;
  (** the dependencies of the effect when it last ran; [None] before the
      first render *)
  deps : option (bool * option jstr);
  (** what [console.warn] has printed *)
  console : list (jstr * exn)
}.

Definition set_opened (o : bool) (w : World) : World :=
  mkWorld (json w) (contents w) (hasChanges w) (nodes w) (selectedNode w)
          o (editing w) (editedText w) (deps w) (console w).

Definition setSelectedNode (n : option (NodeData number)) (w : World) : World :=
  mkWorld (json w) (contents w) (hasChanges w) (nodes w) n
          (opened w) (editing w) (editedText w) (deps w) (console w).

Definition setEditing (b : bool) (w : World) : World :=
  mkWorld (json w) (contents w) (hasChanges w) (nodes w) (selectedNode w)
          (opened w) b (editedText w) (deps w) (console w).

Definition setEditedText (t : jstr) (w : World) : World :=
  mkWorld (json w) (contents w) (hasChanges w) (nodes w) (selectedNode w)
          (opened w) (editing w) t (deps w) (console w).

Definition set_deps (d : option (bool * option jstr)) (w : World) : World :=
  mkWorld (json w) (contents w) (hasChanges w) (nodes w) (selectedNode w)
          (opened w) (editing w) (editedText w) d (console w).

(** [useJson.setJson]: the new text, and the graph rebuilt from it. *)
Definition setJson (t : jstr) (w : World) : World :=
  mkWorld t (contents w) (hasChanges w) (buildGraph t) (selectedNode w)
          (opened w) (editing w) (editedText w) (deps w) (console w).

(** [useFile.setState({ contents, hasChanges })] *)
Definition setFile (t : jstr) (dirty : bool) (w : World) : World :=
  mkWorld (json w) t dirty (nodes w) (selectedNode w)
          (opened w) (editing w) (editedText w) (deps w) (console w).

Definition console_warn (msg : jstr) (err : exn) (w : World) : World :=
  mkWorld (json w) (contents w) (hasChanges w) (nodes w) (selectedNode w)
          (opened w) (editing w) (editedText w) (deps w)
          (console w ++ [(msg, err)]).

(** Lines 41-45: the effect, which runs after a render whose
    dependencies [opened] and [nodeData?.id] differ from those of the
    render before, and after the first render. *)
Definition option_jstr_eqb (a b : option jstr) : bool :=
  match a, b with
  | Some x, Some y => jstr_eqb x y
  | None, None => true
  | _, _ => false
  end.

Definition effect_deps (w : World) : bool * option jstr :=
  (opened w, option_map id (selectedNode w)).

Definition same_deps (old : option (bool * option jstr)) (new : bool * option jstr) : bool :=
  match old with
  | Some (o, i) => Bool.eqb o (fst new) && option_jstr_eqb i (snd new)
  | None => false
  end.

Definition reset_editor (w : World) : World :=
  setEditedText [] (setEditing false w).

Definition render (w : World) : World :=
  if same_deps (deps w) (effect_deps w) then w
  else set_deps (Some (effect_deps w)) (reset_editor w).

(** The modal is opened or closed by its owner, and the selection is
    changed by the graph view; the component renders again. *)
Definition open_modal (w : World) : World := render (set_opened true w).
Definition close_modal (w : World) : World := render (set_opened false w).
Definition select_node (n : option (NodeData number)) (w : World) : World :=
  render (setSelectedNode n w).

(** Lines 47-50. *)
Definition handleEdit (w : World) : World :=
  let rows := match selectedNode w with
              | Some nodeData => text nodeData
              | None => []
              end in
  setEditing true (setEditedText (normalizeNodeData (Some rows)) w).

(** Lines 52-55. *)
Definition handleCancel (w : World) : World :=
  setEditedText [] (setEditing false w).

(** The record of formatting options of line 108. *)
Definition formattingOptions : FormattingOptions := mkFormatting true 2.

(** Lines 107-111: the patch. *)
Definition DocumentPatcher (originalJson : jstr) (path : JSONPath) (valueToWrite : val)
  : result exn jstr :=
  match modify originalJson path valueToWrite formattingOptions with
  | Ok edits => applyEdits originalJson edits
  | Throw err => Throw err
  end.

(** Line 79: [nodeData.path ?? []]. *)
Definition node_path (nodeData : NodeData number) : JSONPath :=
  match path nodeData with
  | Some p => p
  | None => []
  end.

(** Line 120: the test of [find]. *)
Definition same_path (p : JSONPath) (n : NodeData number) : bool :=
  option_jstr_eqb (JSON_stringify_path (path n)) (JSON_stringify_path (Some p)).

(** Lines 117-126. *)
Definition reselect (p : JSONPath) (w : World) : World :=
  match find (same_path p) (nodes w) with
  | Some match_ => setSelectedNode (Some match_) w
  | None => w
  end.

(** Lines 60-105: the value that the save writes. *)
Definition valueToWrite (w : World) (nodeData : NodeData number) : val :=
  MergeResolver (json w) (node_path nodeData) (EditParser (editedText w)).

(** Lines 57-136. *)
Definition handleSave (w : World) : World :=
  match selectedNode w with
  | None => w
  | Some nodeData =>
    let originalJson := json w in
    let path := node_path nodeData in
    match DocumentPatcher originalJson path (valueToWrite w nodeData) with
    | Ok newJson =>
      setEditedText []
        (setEditing false
           (reselect path (setFile newJson false (setJson newJson w))))
    | Throw err => console_warn (str "Failed to apply edit to JSON") err w
    end
  end.

(** ** The view (lines 138-203) and the life of the component *)

(** Lines 167-184: the content shown is the normalized rows of the
    selected node while viewing, and the edit buffer while editing. *)
Definition content_shown (w : World) : jstr :=
  if editing w then editedText w
  else normalizeNodeData (Some (match selectedNode w with
                                | Some nodeData => text nodeData
                                | None => []
                                end)).

(** Lines 190-199: [jsonPathToString(nodeData?.path)]. *)
Definition path_shown (w : World) : jstr :=
  jsonPathToString (match selectedNode w with
                    | Some nodeData => path nodeData
                    | None => None
                    end).

(** What the user can do: the Edit button (lines 147-151), the Save and
    Cancel buttons (lines 152-161), and typing in the text area (lines
    177-184). *)
Inductive action : Type :=
| ClickEdit
| ClickSave
| ClickCancel
| TypeText (t : jstr).

(** Edit is rendered while not editing; Save, Cancel and the text area are
    rendered while editing. *)
Definition offered (w : World) (a : action) : bool :=
  match a with
  | ClickEdit => negb (editing w)
  | ClickSave | ClickCancel | TypeText _ => editing w
  end.

Definition run (a : action) (w : World) : World :=
  match a with
  | ClickEdit => handleEdit w
  | ClickSave => handleSave w
  | ClickCancel => handleCancel w
  | TypeText t => setEditedText t w
  end.

(** An action that the view offers runs its handler, and the component
    renders again. *)
Definition act (a : action) (w : World) : World :=
  if offered w a then render (run a w) else w.

(** The rest of the application changes the stores and the [opened]
    property as it likes; the component renders again. *)
Definition external (j c : jstr) (dirty : bool) (ns : list (NodeData number))
    (sel : option (NodeData number)) (o : bool) (w : World) : World :=
  render (mkWorld j c dirty ns sel o (editing w) (editedText w) (deps w) (console w)).

(** Lines 38-39: the component starts viewing, with an empty buffer; its
    first render runs the effect. *)
Definition mount (j c : jstr) (dirty : bool) (ns : list (NodeData number))
    (sel : option (NodeData number)) (o : bool) : World :=
  render (mkWorld j c dirty ns sel o false [] None []).

Inductive reachable : World -> Prop :=
| reach_mount j c dirty ns sel o : reachable (mount j c dirty ns sel o)
| reach_act a w : reachable w -> reachable (act a w)
| reach_external j c dirty ns sel o w :
    reachable w -> reachable (external j c dirty ns sel o w).

End Modal.

Arguments val : clear implicits.
Arguments World : clear implicits.

(** ** An example runtime

    A runtime to run the definitions on concrete inputs.  Its numbers are
    exact decimals [m * 10^e]; that agrees with the doubles of the real
    runtime on the literals with at most 15 significant digits.  It knows
    few built-ins, and its patcher only replaces a whole document by a
    scalar. *)

Module Example.

Inductive dnum : Type :=
| DNaN
| DFin (m e : Z).

(** [m * 10^e] with no factor 10 left in [m]. *)
Fixpoint strip_zeros (fuel : nat) (m e : Z) : Z * Z :=
  match fuel with
  | O => (m, e)
  | S fuel' =>
    if (m =? 0)%Z then (0%Z, 0%Z)
    else if (m mod 10 =? 0)%Z then strip_zeros fuel' (m / 10)%Z (e + 1)%Z
    else (m, e)
  end.

Definition dnum_of (m e : Z) : dnum :=
  let (m', e') := strip_zeros (Z.to_nat (Z.log2 (Z.abs m) + 1)) m e in DFin m' e'.

Fixpoint take_digits (s : jstr) : jstr * jstr :=
  match s with
  | c :: r => if is_digit c then let (d, r') := take_digits r in (c :: d, r') else ([], s)
  | [] => ([], [])
  end.

Definition digits_Z (d : jstr) : option Z :=
  match d with
  | [] => None
  | _ => option_map Z.of_N (digits_value 0 d)
  end.

(** A decimal literal: sign, digits, fraction, exponent. *)
Definition parse_decimal (s : jstr) : dnum :=
  let (neg, s0) := match s with
                   | c :: r => if c =? 45 then (true, r) else (false, s)
                   | [] => (false, s)
                   end in
  let (ip, s1) := take_digits s0 in
  let (fp, s2) := match s1 with
                  | c :: r => if c =? 46 then take_digits r else ([], s1)
                  | [] => ([], s1)
                  end in
  let ex : option Z :=
    match s2 with
    | [] => Some 0%Z
    | c :: r =>
      if (c =? 101) || (c =? 69) then
        match r with
        | d :: r' =>
          if d =? 45 then option_map Z.opp (digits_Z r')
          else if d =? 43 then digits_Z r'
          else digits_Z r
        | [] => None
        end
      else None
    end in
  match digits_Z (ip ++ fp), ex with
  | Some m, Some x =>
    match ip with
    | [] => DNaN
    | _ => dnum_of (if neg then - m else m)%Z (x - Z.of_nat (List.length fp))%Z
    end
  | _, _ => DNaN
  end.

Definition zeros (n : Z) : jstr := repeat 48 (Z.to_nat n).

(** [Number::toString] on the digits [s] of the mantissa, their number
    [k], and [n] = [k + e]. *)
Definition print_decimal (x : dnum) : jstr :=
  match x with
  | DNaN => str "NaN"
  | DFin m e =>
    if (m =? 0)%Z then str "0"
    else
      let sign := if (m <? 0)%Z then [45] else [] in
      let s := N_to_jstr (Z.to_N (Z.abs m)) in
      let k := Z.of_nat (List.length s) in
      let n := (k + e)%Z in
      sign ++
      (if (k <=? n)%Z && (n <=? 21)%Z then s ++ zeros (n - k)
       else if (0 <? n)%Z && (n <=? 21)%Z
       then firstn (Z.to_nat n) s ++ [46] ++ skipn (Z.to_nat n) s
       else if (-6 <? n)%Z && (n <=? 0)%Z then str "0." ++ zeros (- n) ++ s
       else
         let x := (n - 1)%Z in
         let xs := (if (x <? 0)%Z then [45] else [43]) ++ N_to_jstr (Z.to_N (Z.abs x)) in
         match s with
         | [d] => [d] ++ [101] ++ xs
         | d :: ds => [d] ++ [46] ++ ds ++ [101] ++ xs
         | [] => []
         end)
  end.

Definition is_fin (x : dnum) : bool :=
  match x with
  | DNaN => false
  | DFin _ _ => true
  end.

Inductive builtin : Type :=
| ObjectPrototype
| ArrayPrototype.

Definition dval : Type := value dnum builtin.

Definition builtin_get (v : dval) (k : jstr) : option dval :=
  if jstr_eqb k (str "length") then
    match v with
    | VArr elems => Some (VNum (dnum_of (Z.of_nat (List.length elems)) 0))
    | VStr s => Some (VNum (dnum_of (Z.of_nat (List.length s)) 0))
    | _ => Some VUndef
    end
  else if jstr_eqb k (str "__proto__") then
    match v with
    | VObj _ => Some (VHost ObjectPrototype)
    | VArr _ => Some (VHost ArrayPrototype)
    | VHost ArrayPrototype => Some (VHost ObjectPrototype)
    | VHost ObjectPrototype => Some VNull
    | _ => Some VUndef
    end
  else Some VUndef.

Definition builtin_isObject (h : builtin) : bool :=
  match h with
  | ObjectPrototype => true
  | ArrayPrototype => false
  end.

Definition builtin_ownProps (h : builtin) : props dval := [].

(** An edit replaces [len] code units at [offset] by [content]. *)
Record text_edit : Type := mkTextEdit {
  offset : nat;
  len : nat;
  content : jstr
}.

Definition scalar_text (v : dval) : option jstr :=
  match v with
  | VNull => Some (str "null")
  | VBool b => Some (if b then str "true" else str "false")
  | VNum n => Some (if is_fin n then print_decimal n else str "null")
  | VStr s => Some (quote s)
  | _ => None
  end.

Definition replace_root (text : jstr) (p : JSONPath) (v : dval) (_ : FormattingOptions)
  : result jstr (list text_edit) :=
  match p, scalar_text v with
  | [], Some t => Ok [mkTextEdit 0 (List.length text) t]
  | _, _ => Throw (str "unsupported edit")
  end.

Definition apply_edit (text : jstr) (e : text_edit) : jstr :=
  firstn (offset e) text ++ content e ++ skipn (offset e + len e) text.

Definition apply_all (text : jstr) (edits : list text_edit) : result jstr jstr :=
  Ok (fold_left apply_edit edits text).

(** The graph of a document: here, its root node alone. *)
Definition root_graph (text : jstr) : list (NodeData dnum) :=
  [mkNode (str "1") [] (Some [])].

#[export] Instance runtime : Runtime := {|
  number := dnum;
  StringToNumber := parse_decimal;
  NumberToString := print_decimal;
  isFinite := is_fin;
  host := builtin;
  host_get := builtin_get;
  host_isObject := builtin_isObject;
  host_ownProps := builtin_ownProps;
  exn := jstr;
  edit := text_edit;
  modify := replace_root;
  applyEdits := apply_all;
  buildGraph := root_graph
|}.

(** Values for the examples: [{a:1,b:2}], [{b:3,c:4}], [[1,2,3]], [{x:1}]. *)
Definition int (z : Z) : val runtime := VNum (DFin z 0).
Definition obj_ab : val runtime := VObj [(str "a", int 1); (str "b", int 2)].
Definition obj_bc : val runtime := VObj [(str "b", int 3); (str "c", int 4)].
Definition arr_123 : val runtime := VArr [int 1; int 2; int 3].
Definition obj_x : val runtime := VObj [(str "x", int 1)].

(** Rows for the examples: a row without a key, and the rows of a node
    with two scalars, an object and an unkeyed entry. *)
Definition row_abc : NodeRow number := mkRow None (SStr (str "abc")) (str "string").
Definition rows_abc : list (NodeRow number) :=
  [mkRow (Some (str "a")) (SNum (DFin 1 0)) (str "number");
   mkRow (Some (str "c")) SUndef (str "object");
   mkRow (Some (str "b")) (SStr (str "x")) (str "string");
   mkRow None (SNum (DFin 7 0)) (str "number")].

Definition rows_proto : list (NodeRow number) :=
  [mkRow (Some (str "a")) (SNum (DFin 1 0)) (str "number");
   mkRow (Some (str "__proto__")) (SStr (str "x")) (str "string")].

(** Worlds for the examples: the document [{"a":1}] with its root node,
    the editor open on the buffer [buffer]. *)
Definition root_node : NodeData number := mkNode (str "7") [] (Some []).
Definition other_node : NodeData number := mkNode (str "8") [] (Some [SegKey (str "a")]).

Definition world (is_open : bool) (sel : option (NodeData number)) (buffer : jstr)
  : World runtime :=
  mkWorld (jtext "{'a':1}") (jtext "{'a':1}") true [root_node; other_node] sel
          is_open true buffer (Some (is_open, option_map id sel)) [].
End Example.

(** ** The vocabulary of the specification *)

Definition all_digits (s : jstr) : Prop :=
  s <> [] /\ Forall (fun c => is_digit c = true) s.

Definition starts_nondigit (s : jstr) : Prop :=
  match s with
  | [] => True
  | c :: _ => is_digit c = false
  end.

(** An integer or decimal literal: an optional minus sign, digits, and
    optionally a point and digits. *)
Definition decimal_literal (s : jstr) : Prop :=
  exists sign int frac,
    s = sign ++ int ++ frac /\
    (sign = [] \/ sign = [45]) /\
    all_digits int /\
    (frac = [] \/ exists f, frac = 46 :: f /\ all_digits f).

(** The rows that the mapping of [normalizeNodeData] is built from: those
    that are typed neither array nor object and have a key; and the mapping
    itself, in which a later row of a key replaces an earlier one. *)
Definition kept_row {R : Runtime} (r : NodeRow number) : bool :=
  negb (is_container r) && truthy_key (key r).

Definition row_entries {R : Runtime} (rows : list (NodeRow number))
  : props (scalar number) :=
  flat_map (fun r => match key r with
                     | Some k => if kept_row r then [(k, value_ r)] else []
                     | None => []
                     end) rows.

(** What the proofs about [JSON.stringify] speak of: the characters of a
    rendered integer, the separators of a rendered path, a path rendered
    without its opening bracket, and the three forms that a code unit takes
    in a quoted string. *)
Definition is_int_char (c : N) : bool := is_digit c || (c =? 45).

Definition is_sep (c : N) : Prop := c = 44 \/ c = 93.

Definition path_tail (segs : JSONPath) : jstr :=
  join (str ",") (map segment_json segs) ++ str "]".

Inductive unit_form (c : N) : jstr -> Prop :=
| form_raw : c <> QUOTE -> c <> BACKSLASH -> unit_form c [c]
| form_short e : short_escape c = Some e -> unit_form c [BACKSLASH; e]
| form_unicode : c < 65536 -> unit_form c (unicode_escape c).

(** A world after a render: the effect has seen the current values of its
    dependencies. *)
Definition rendered {R : Runtime} (w : World R) : Prop :=
  deps w = Some (effect_deps w).

(** A value all of whose objects, at any depth, have distinct keys in the
    order of enumeration; and the states of the parser that hold such
    values only. *)
Fixpoint wf_value {R : Runtime} (v : val R) : Prop :=
  match v with
  | VArr elems =>
    (fix all (l : list (val R)) : Prop :=
       match l with
       | [] => True
       | x :: r => wf_value x /\ all r
       end) elems
  | VObj ps =>
    wf_props ps /\
    (fix all (l : props (val R)) : Prop :=
       match l with
       | [] => True
       | kv :: r => wf_value (snd kv) /\ all r
       end) ps
  | _ => True
  end.

Definition wf_entries {R : Runtime} (ps : props (val R)) : Prop :=
  wf_props ps /\ Forall (fun kv => wf_value (snd kv)) ps.

Definition wf_frame {R : Runtime} (f : frame) : Prop :=
  match f with
  | FArr acc => Forall wf_value acc
  | FObj ps _ => wf_entries ps
  end.

Definition wf_pstate {R : Runtime} (st : pstate) : Prop :=
  match st with
  | PValue stk | PArrStart stk | PObjStart stk => Forall wf_frame stk
  | PKey ps stk | PColon ps _ stk | PObjNext ps stk =>
    wf_entries ps /\ Forall wf_frame stk
  | PArrNext acc stk => Forall wf_value acc /\ Forall wf_frame stk
  | PDone v => wf_value v
  end.

(** A path none of whose keys contains a double quote. *)
Definition quote_free (p : JSONPath) : Prop :=
  forall s, In (SegKey s) p -> ~ In QUOTE s.

Definition not_quote (c : N) : bool := negb (c =? QUOTE).

(** What the round trip of the edit buffer speaks of: the entries that
    [JSON.stringify] prints, with the value each one reads back as, the
    text and the tokens of one member and of the members after the first,
    and the numbers that their decimal rendering gives back. *)
Section EditBuffer.
Context {R : Runtime}.

Definition is_printed (kv : jstr * scalar number) : bool :=
  match snd kv with
  | SUndef => false
  | _ => true
  end.

Definition printed_val (v : scalar number) : val R :=
  match v with
  | SUndef => VUndef
  | SNull => VNull
  | SBool b => VBool b
  | SNum n => if isFinite n then VNum n else VNull
  | SStr s => VStr s
  end.

Definition printed_entries (ps : props (scalar number)) : props (val R) :=
  map (fun kv => (fst kv, printed_val (snd kv))) (filter is_printed ps).

Definition number_round_trips (n : number) : Prop :=
  is_json_number (NumberToString n) = true /\ StringToNumber (NumberToString n) = n.

Definition value_text (v : scalar number) : jstr :=
  match JSON_stringify_scalar v with
  | Some t => t
  | None => []
  end.

Definition value_token (v : scalar number) : token :=
  match v with
  | SUndef => TWord []
  | SNull => TWord (str "null")
  | SBool b => TWord (if b then str "true" else str "false")
  | SNum n => if isFinite n then TNumber (NumberToString n) else TWord (str "null")
  | SStr s => TString s
  end.

Definition member_text (kv : jstr * scalar number) : jstr :=
  quote (fst kv) ++ str ": " ++ value_text (snd kv).

Definition separator : jstr := str "," ++ [LF] ++ str "  ".

Definition more_text (es : props (scalar number)) : jstr :=
  List.concat (map (fun kv => separator ++ member_text kv) es) ++ [LF] ++ str "}".

Definition member_tokens (kv : jstr * scalar number) : list token :=
  [TString (fst kv); TColon; value_token (snd kv)].

Definition more_tokens (es : props (scalar number)) : list token :=
  List.concat (map (fun kv => TComma :: member_tokens kv) es) ++ [TRBrace].

Definition numbers_round_trip (ps : props (scalar number)) : Prop :=
  forall k n, In (k, SNum n) ps -> isFinite n = true -> number_round_trips n.

(** The characters that follow a member: a comma or a line feed. *)
Definition is_delim (c : N) : Prop := c = 44 \/ c = 10.
End EditBuffer.

(** * Properties *)

(** ** Strings and keys *)

Lemma jstr_eqb_eq (a b : jstr) : jstr_eqb a b = true <-> a = b.
Proof.
  revert b; induction a as [|x a IH]; intros [|y b]; simpl; split;
    try congruence; try reflexivity.
  - intros H. apply andb_true_iff in H as [Hx Hab].
    apply N.eqb_eq in Hx. apply IH in Hab. congruence.
  - intros H. injection H as -> ->.
    rewrite N.eqb_refl. simpl. now apply IH.
Qed.

Lemma jstr_eqb_refl (a : jstr) : jstr_eqb a a = true.
Proof. now apply jstr_eqb_eq. Qed.

Lemma jstr_eqb_neq (a b : jstr) : jstr_eqb a b = false <-> a <> b.
Proof.
  split.
  - intros H E. apply jstr_eqb_eq in E. congruence.
  - intros H. destruct (jstr_eqb a b) eqn:E; [|reflexivity].
    apply jstr_eqb_eq in E. contradiction.
Qed.

Lemma jstr_eqb_sym (a b : jstr) : jstr_eqb a b = jstr_eqb b a.
Proof.
  destruct (jstr_eqb b a) eqn:E.
  - apply jstr_eqb_eq in E. subst. apply jstr_eqb_refl.
  - apply jstr_eqb_neq in E. apply jstr_eqb_neq. congruence.
Qed.

(** An array index is the rendering of its value, so two keys with the
    same index are the same key. *)
Lemma array_index_canonical (k : jstr) (i : N) :
  array_index k = Some i -> k = N_to_jstr i.
Proof.
  unfold array_index. destruct k as [|c r]; [discriminate|].
  destruct (digits_value 0 (c :: r)) as [n|]; [|discriminate].
  destruct (jstr_eqb (N_to_jstr n) (c :: r)) eqn:E; simpl; [|discriminate].
  destruct (n <? 4294967295); [|discriminate].
  intros [= <-]. apply jstr_eqb_eq in E. congruence.
Qed.

Lemma array_index_inj (a b : jstr) (i : N) :
  array_index a = Some i -> array_index b = Some i -> a = b.
Proof.
  intros Ha Hb. apply array_index_canonical in Ha, Hb. congruence.
Qed.

(** ** Property lists *)

Section PropsFacts.
Context {V : Type}.
Implicit Types (ps : props V) (k : jstr) (v : V).

Lemma lookup_None ps k : lookup k ps = None <-> ~ In k (keys ps).
Proof.
  induction ps as [|[k' v'] r IH]; simpl.
  - tauto.
  - destruct (lookup k r) eqn:E.
    + split; [discriminate|]. intros H. exfalso. apply H. right.
      destruct (in_dec (list_eq_dec N.eq_dec) k (keys r)) as [i|n]; [exact i|].
      apply IH in n. discriminate.
    + destruct (jstr_eqb k' k) eqn:Ek.
      * apply jstr_eqb_eq in Ek. split; [discriminate|]. intros H. exfalso. auto.
      * apply jstr_eqb_neq in Ek. split; [|reflexivity].
        intros _ [H|H]; [contradiction|]. now apply IH in H.
Qed.

Lemma lookup_Some_In ps k v : lookup k ps = Some v -> In (k, v) ps.
Proof.
  induction ps as [|[k' v'] r IH]; simpl; [discriminate|].
  destruct (lookup k r) eqn:E.
  - intros [= <-]. right. now apply IH.
  - destruct (jstr_eqb k' k) eqn:Ek; [|discriminate].
    apply jstr_eqb_eq in Ek. intros [= <-]. left. congruence.
Qed.

Lemma key_before_irrefl k : ~ key_before k k.
Proof.
  unfold key_before. destruct (array_index k); [lia|congruence].
Qed.

Lemma wf_keys_not_in k ks : wf_keys (k :: ks) -> ~ In k ks.
Proof.
  intros H Hin. inversion H as [|? ? Hall _]; subst.
  rewrite Forall_forall in Hall. exact (key_before_irrefl k (Hall k Hin)).
Qed.

Lemma wf_keys_NoDup ks : wf_keys ks -> NoDup ks.
Proof.
  induction 1 as [|k ks Hall Hwf IH]; constructor; [|exact IH].
  apply wf_keys_not_in. now constructor.
Qed.

(** The keys after [replace_or_append] and [replace_or_insert]. *)
Lemma replace_or_append_keys (P : jstr -> Prop) k v ps :
  P k -> Forall P (keys ps) -> Forall P (keys (replace_or_append k v ps)).
Proof.
  intros Hk. induction ps as [|[k' v'] r IH]; simpl; intros H.
  - now constructor.
  - inversion H; subst. destruct (jstr_eqb k' k); simpl; constructor; auto.
Qed.

Lemma replace_or_insert_keys (P : jstr -> Prop) i k v ps :
  P k -> Forall P (keys ps) -> Forall P (keys (replace_or_insert i k v ps)).
Proof.
  intros Hk. induction ps as [|[k' v'] r IH]; simpl; intros H.
  - now constructor.
  - inversion H; subst. destruct (jstr_eqb k' k); simpl; [constructor; auto|].
    destruct (array_index k') as [j|]; [destruct (j <? i)|]; simpl;
      repeat constructor; auto.
Qed.

Lemma define_own_Forall (P : jstr * V -> Prop) k v ps :
  P (k, v) -> Forall P ps -> Forall P (define_own k v ps).
Proof.
  intros Hk. unfold define_own. destruct (array_index k) as [i|].
  - induction ps as [|[k' v'] r IH]; simpl; intros H.
    + now constructor.
    + inversion H; subst. destruct (jstr_eqb k' k); [constructor; auto|].
      destruct (array_index k') as [j|]; [destruct (j <? i)|];
        repeat constructor; auto.
  - induction ps as [|[k' v'] r IH]; simpl; intros H.
    + now constructor.
    + inversion H; subst. destruct (jstr_eqb k' k); constructor; auto.
Qed.

Lemma replace_or_append_wf k v ps :
  array_index k = None -> wf_props ps -> wf_props (replace_or_append k v ps).
Proof.
  intros Hk. unfold wf_props.
  induction ps as [|[k' v'] r IH]; simpl; intros H.
  - repeat constructor.
  - inversion H as [|? ? Hall Hwf]; subst.
    destruct (jstr_eqb k' k) eqn:E; simpl.
    + apply jstr_eqb_eq in E. subst. now constructor.
    + apply jstr_eqb_neq in E. constructor; [|auto].
      apply replace_or_append_keys; [|exact Hall].
      unfold key_before. rewrite Hk. destruct (array_index k'); auto.
Qed.

Lemma replace_or_insert_wf i k v ps :
  array_index k = Some i -> wf_props ps -> wf_props (replace_or_insert i k v ps).
Proof.
  intros Hk. unfold wf_props.
  induction ps as [|[k' v'] r IH]; simpl; intros H.
  - repeat constructor.
  - inversion H as [|? ? Hall Hwf]; subst.
    destruct (jstr_eqb k' k) eqn:E; simpl.
    + apply jstr_eqb_eq in E. subst. now constructor.
    + apply jstr_eqb_neq in E.
      assert (Hins : wf_keys (k :: k' :: keys r) \/ exists j, array_index k' = Some j /\ j < i).
      { destruct (array_index k') as [j|] eqn:Ej.
        - destruct (N.lt_ge_cases j i) as [Hlt|Hge]; [right; eauto|left].
          assert (i < j).
          { apply N.le_lteq in Hge as [Hlt|Heq]; [exact Hlt|]. subst j.
            exfalso. apply E. eapply array_index_inj; eauto. }
          constructor; [|exact H]. constructor.
          + unfold key_before. now rewrite Hk, Ej.
          + rewrite Forall_forall in *. intros x Hx. specialize (Hall x Hx).
            unfold key_before in *. rewrite Hk. rewrite Ej in Hall.
            destruct (array_index x); [lia|exact I].
        - left. constructor; [|exact H]. constructor.
          + unfold key_before. now rewrite Hk, Ej.
          + rewrite Forall_forall in *. intros x Hx. specialize (Hall x Hx).
            unfold key_before in *. rewrite Hk. rewrite Ej in Hall.
            destruct (array_index x); [contradiction|exact I]. }
      destruct (array_index k') as [j|] eqn:Ej.
      * destruct (j <? i) eqn:Hj; simpl.
        -- constructor; [|auto]. apply replace_or_insert_keys; [|exact Hall].
           apply N.ltb_lt in Hj. unfold key_before. now rewrite Ej, Hk.
        -- apply N.ltb_ge in Hj. destruct Hins as [Hw|(j' & Hj' & Hlt)]; [exact Hw|].
           injection Hj' as <-. lia.
      * destruct Hins as [Hw|(j' & Hj' & _)]; [exact Hw|discriminate].
Qed.

Lemma define_own_wf k v ps : wf_props ps -> wf_props (define_own k v ps).
Proof.
  unfold define_own. destruct (array_index k) eqn:E.
  - now apply replace_or_insert_wf.
  - now apply replace_or_append_wf.
Qed.

Lemma define_all_wf kvs ps : wf_props ps -> wf_props (define_all kvs ps).
Proof.
  unfold define_all. revert ps.
  induction kvs as [|[k v] r IH]; simpl; intros ps H; [exact H|].
  apply IH. now apply define_own_wf.
Qed.

Lemma wf_props_nil : wf_props (@nil (jstr * V)).
Proof. constructor. Qed.

(** Lookup on a well-formed list finds the entry wherever it stands. *)
Lemma lookup_cons_wf k' v' ps k :
  wf_props ((k', v') :: ps) ->
  lookup k ((k', v') :: ps) = if jstr_eqb k' k then Some v' else lookup k ps.
Proof.
  intros H. simpl. destruct (jstr_eqb k' k) eqn:E.
  - apply jstr_eqb_eq in E. subst k'.
    unfold wf_props in H. simpl in H.
    apply wf_keys_not_in in H. apply lookup_None in H. now rewrite H.
  - now destruct (lookup k ps).
Qed.

Lemma wf_props_tail kv ps : wf_props (kv :: ps) -> wf_props ps.
Proof. intros H. now inversion H. Qed.

Lemma lookup_replace_or_append k v ps k0 :
  array_index k = None -> wf_props ps ->
  lookup k0 (replace_or_append k v ps) = if jstr_eqb k k0 then Some v else lookup k0 ps.
Proof.
  intros Hk. induction ps as [|[k' v'] r IH]; intros H.
  - simpl. reflexivity.
  - pose proof (wf_props_tail _ _ H) as Hr.
    pose proof (replace_or_append_wf k v _ Hk H) as Hw.
    rewrite (lookup_cons_wf k' v' r k0 H).
    simpl replace_or_append in *. destruct (jstr_eqb k' k) eqn:E.
    + apply jstr_eqb_eq in E. subst k'.
      rewrite (lookup_cons_wf k v r k0 Hw). now destruct (jstr_eqb k k0).
    + rewrite (lookup_cons_wf k' v' _ k0 Hw), (IH Hr).
      destruct (jstr_eqb k' k0) eqn:E0; [|reflexivity].
      apply jstr_eqb_eq in E0. subst k0. rewrite jstr_eqb_sym, E. reflexivity.
Qed.

(** With the keys distinct, an entry put in front is found like any
    other. *)
Lemma lookup_replace_or_insert i k v ps k0 :
  array_index k = Some i -> wf_props ps ->
  lookup k0 (replace_or_insert i k v ps) = if jstr_eqb k k0 then Some v else lookup k0 ps.
Proof.
  intros Hk. induction ps as [|[k' v'] r IH]; intros H.
  - simpl. reflexivity.
  - pose proof (wf_props_tail _ _ H) as Hr.
    pose proof (replace_or_insert_wf i k v _ Hk H) as Hw.
    simpl replace_or_insert in *. destruct (jstr_eqb k' k) eqn:E.
    + apply jstr_eqb_eq in E. subst k'.
      rewrite (lookup_cons_wf k v r k0 Hw), (lookup_cons_wf k v' r k0 H).
      now destruct (jstr_eqb k k0).
    + destruct (array_index k') as [j|]; [destruct (j <? i)|];
        try (rewrite (lookup_cons_wf k v _ k0 Hw); reflexivity).
      rewrite (lookup_cons_wf k' v' _ k0 Hw), (lookup_cons_wf k' v' r k0 H), (IH Hr).
      destruct (jstr_eqb k' k0) eqn:E0; [|reflexivity].
      apply jstr_eqb_eq in E0. subst k0. rewrite jstr_eqb_sym, E. reflexivity.
Qed.

Lemma lookup_define_own k v ps k0 :
  wf_props ps ->
  lookup k0 (define_own k v ps) = if jstr_eqb k k0 then Some v else lookup k0 ps.
Proof.
  unfold define_own. destruct (array_index k) eqn:E.
  - now apply lookup_replace_or_insert.
  - now apply lookup_replace_or_append.
Qed.

(** Defining the entries of [kvs] one after the other: the last entry of
    a key wins, and the keys that [kvs] does not name keep their value. *)
Lemma lookup_define_all kvs ps k0 :
  wf_props ps ->
  lookup k0 (define_all kvs ps)
  = match lookup k0 kvs with Some v => Some v | None => lookup k0 ps end.
Proof.
  unfold define_all. revert ps.
  induction kvs as [|[k v] r IH]; intros ps H; simpl; [reflexivity|].
  rewrite (IH _ (define_own_wf k v ps H)), (lookup_define_own k v ps k0 H).
  destruct (lookup k0 r); [reflexivity|]. now destruct (jstr_eqb k k0).
Qed.

Lemma keys_define_own k v ps k0 :
  In k0 (keys (define_own k v ps)) -> k0 = k \/ In k0 (keys ps).
Proof.
  intros H.
  assert (Hall : Forall (fun x => x = k \/ In x (keys ps)) (keys (define_own k v ps))).
  { unfold define_own. destruct (array_index k).
    - apply replace_or_insert_keys; [now left|].
      apply Forall_forall. now right.
    - apply replace_or_append_keys; [now left|].
      apply Forall_forall. now right. }
  rewrite Forall_forall in Hall. exact (Hall k0 H).
Qed.
End PropsFacts.

(** ** The merge (lines 84-105) *)

Section MergeFacts.
Context {R : Runtime}.

Lemma spread2_wf (a b : val R) : wf_props (spread2 a b).
Proof.
  unfold spread2. apply define_all_wf, define_all_wf, wf_props_nil.
Qed.

Lemma lookup_spread2 (a b : val R) (k : jstr) :
  lookup k (spread2 a b)
  = match lookup k (own_enumerable b) with
    | Some v => Some v
    | None => lookup k (own_enumerable a)
    end.
Proof.
  unfold spread2.
  rewrite lookup_define_all by apply define_all_wf, wf_props_nil.
  rewrite lookup_define_all by apply wf_props_nil.
  destruct (lookup k (own_enumerable b)); [reflexivity|].
  now destruct (lookup k (own_enumerable a)).
Qed.

(** C1.  When the document parses, the value at the path is an object
    (not an array, not null) and so is the candidate, [MergeResolver]
    yields their shallow merge: an object, with distinct keys, in which
    every key of the candidate has the candidate's value, and every other
    key has what the existing object has for it (its value, or nothing). *)
Theorem MergeResolver_shallow_merge
    (D : jstr) (P : JSONPath) (doc existing candidate : val R) :
  JSON_parse D = Some doc ->
  getAtPath doc P = Some existing ->
  isObject existing = true ->
  isObject candidate = true ->
  exists merged : props (val R),
    MergeResolver D P candidate = VObj merged /\
    wf_props merged /\
    (forall k v, lookup k (own_enumerable candidate) = Some v ->
                 lookup k merged = Some v) /\
    (forall k, lookup k (own_enumerable candidate) = None ->
               lookup k merged = lookup k (own_enumerable existing)).
Proof.
  intros HD HP He Hc. exists (spread2 existing candidate).
  unfold MergeResolver. rewrite HD, HP, He, Hc. simpl.
  split; [reflexivity|]. split; [apply spread2_wf|]. split.
  - intros k v Hk. rewrite lookup_spread2, Hk. reflexivity.
  - intros k Hk. rewrite lookup_spread2, Hk. reflexivity.
Qed.

(** C5.  [MergeResolver] is a total function, and it returns the
    candidate as it is when the document does not parse, when the
    traversal of the path throws, when the value found is no object (an
    array, a scalar, null, or nothing: [undefined]), and when the
    candidate is no object. *)
Theorem MergeResolver_verbatim (D : jstr) (P : JSONPath) (candidate : val R) :
  JSON_parse D = None \/
  (exists doc, JSON_parse D = Some doc /\ getAtPath doc P = None) \/
  (exists doc existing, JSON_parse D = Some doc /\
                        getAtPath doc P = Some existing /\
                        isObject existing = false) \/
  isObject candidate = false ->
  MergeResolver D P candidate = candidate.
Proof.
  unfold MergeResolver.
  intros [H|[(doc & H1 & H2)|[(doc & ex & H1 & H2 & H3)|H]]].
  - now rewrite H.
  - now rewrite H1, H2.
  - now rewrite H1, H2, H3.
  - destruct (JSON_parse D) as [doc|]; [|reflexivity].
    destruct (getAtPath doc P) as [ex|]; [|reflexivity].
    rewrite H, andb_false_r. reflexivity.
Qed.

(** The two outcomes are the only ones. *)
Lemma MergeResolver_cases (D : jstr) (P : JSONPath) (candidate : val R) :
  MergeResolver D P candidate = candidate \/
  exists doc existing,
    JSON_parse D = Some doc /\ getAtPath doc P = Some existing /\
    isObject existing = true /\ isObject candidate = true /\
    MergeResolver D P candidate = VObj (spread2 existing candidate).
Proof.
  unfold MergeResolver.
  destruct (JSON_parse D) as [doc|]; [|now left].
  destruct (getAtPath doc P) as [ex|] eqn:HP; [|now left].
  destruct (isObject ex) eqn:He; [|now left].
  destruct (isObject candidate) eqn:Hc; [|now left].
  right. exists doc, ex. repeat split; auto.
Qed.

(** A missing value: the traversal stops at [null] and [undefined]. *)
Lemma getAtPath_nullish (v : val R) (P : JSONPath) :
  is_nullish v = true -> P <> [] -> getAtPath v P = Some VUndef.
Proof.
  intros H HP. destruct P as [|seg r]; [contradiction|]. simpl. now rewrite H.
Qed.
End MergeFacts.

(** The example of the specification: [{a:1,b:2}] and [{b:3,c:4}]. *)
Lemma MergeResolver_shallow_merge_example :
  MergeResolver (R := Example.runtime)
    (jtext "{'p': {'a':1, 'b':2}}") [SegKey (str "p")]
    (EditParser (jtext "{'b':3, 'c':4}"))
  = VObj [(str "a", Example.int 1); (str "b", Example.int 3); (str "c", Example.int 4)].
Proof. reflexivity. Qed.

Lemma MergeResolver_shallow_merge_witness :
  exists merged : props (val Example.runtime),
    MergeResolver (jtext "{'p': {'a':1, 'b':2}}") [SegKey (str "p")] Example.obj_bc
    = VObj merged /\
    wf_props merged /\
    (forall k v, lookup k (own_enumerable Example.obj_bc) = Some v ->
                 lookup k merged = Some v) /\
    (forall k, lookup k (own_enumerable Example.obj_bc) = None ->
               lookup k merged = lookup k (own_enumerable Example.obj_ab)).
Proof.
  apply (MergeResolver_shallow_merge
           (jtext "{'p': {'a':1, 'b':2}}") [SegKey (str "p")]
           (VObj [(str "p", Example.obj_ab)]) Example.obj_ab Example.obj_bc);
    reflexivity.
Defined.

(** The example of the specification: [[1,2,3]] and [{x:1}]. *)
Lemma MergeResolver_verbatim_witness :
  MergeResolver (jtext "{'p': [1,2,3]}") [SegKey (str "p")] Example.obj_x
  = Example.obj_x.
Proof.
  apply (MergeResolver_verbatim
           (jtext "{'p': [1,2,3]}") [SegKey (str "p")] Example.obj_x).
  right. right. left.
  exists (VObj [(str "p", Example.arr_123)]), Example.arr_123.
  repeat split; reflexivity.
Defined.

(** ** The edit parser (lines 60-76) *)

Lemma skip_digits_app (ds r : jstr) :
  Forall (fun c => is_digit c = true) ds -> starts_nondigit r ->
  skip_digits (ds ++ r) = r.
Proof.
  induction 1 as [|c ds Hc _ IH]; intros Hr; simpl.
  - destruct r as [|c r]; [reflexivity|]. simpl in *. now rewrite Hr.
  - rewrite Hc. now apply IH.
Qed.

Lemma skip_digits_split (s : jstr) :
  exists ds, Forall (fun c => is_digit c = true) ds /\
             s = ds ++ skip_digits s /\ starts_nondigit (skip_digits s).
Proof.
  induction s as [|c s (ds & Hds & Hs & Hn)]; simpl.
  - exists []. repeat split; constructor.
  - destruct (is_digit c) eqn:Hc.
    + exists (c :: ds). repeat split; [now constructor| |exact Hn].
      simpl. congruence.
    + exists []. repeat split; [constructor|]. exact Hc.
Qed.

Lemma digits1_app (ds r : jstr) :
  all_digits ds -> starts_nondigit r -> digits1 (ds ++ r) = Some r.
Proof.
  intros [Hne Hall] Hr. destruct ds as [|c ds]; [contradiction|].
  inversion Hall as [|? ? Hc Hds]; subst. simpl. rewrite Hc.
  now rewrite skip_digits_app.
Qed.

Lemma digits1_split (s r : jstr) :
  digits1 s = Some r ->
  exists ds, all_digits ds /\ s = ds ++ r /\ starts_nondigit r.
Proof.
  destruct s as [|c s]; simpl; [discriminate|].
  destruct (is_digit c) eqn:Hc; [|discriminate].
  intros [= <-]. destruct (skip_digits_split s) as (ds & Hds & Hs & Hn).
  exists (c :: ds). repeat split.
  - discriminate.
  - now constructor.
  - simpl. congruence.
  - exact Hn.
Qed.

(** The regular expression of line 66 accepts the decimal literals. *)
Lemma number_regex_decimal_literal (s : jstr) :
  number_regex s = true <-> decimal_literal s.
Proof.
  unfold number_regex. split.
  - assert (Hsign : exists sign, s = sign ++ opt_minus s /\ (sign = [] \/ sign = [45])).
    { destruct s as [|c r]; simpl; [exists []; auto|].
      destruct (c =? 45) eqn:E.
      - apply N.eqb_eq in E. subst. exists [45]. auto.
      - exists []. auto. }
    destruct Hsign as (sign & Hs & Hsign).
    destruct (digits1 (opt_minus s)) as [[|c r]|] eqn:E; [| |discriminate].
    + intros _. apply digits1_split in E as (ds & Hds & Hm & _).
      exists sign, ds, []. repeat split; try tauto; try apply Hds.
      rewrite Hs at 1. now rewrite Hm.
    + intros H. apply andb_true_iff in H as [Hc Hr].
      apply N.eqb_eq in Hc. subst c.
      destruct (digits1 r) as [[|]|] eqn:Er; try discriminate.
      apply digits1_split in E as (ds & Hds & Hm & _).
      apply digits1_split in Er as (fs & Hfs & Hf & _).
      rewrite app_nil_r in Hf. subst r.
      exists sign, ds, (46 :: fs). repeat split; try tauto; try apply Hds.
      * rewrite Hs at 1. now rewrite Hm.
      * right. exists fs. split; [reflexivity|exact Hfs].
  - intros (sign & int & frac & -> & Hsign & Hint & Hfrac).
    assert (Hm : opt_minus (sign ++ int ++ frac) = int ++ frac).
    { destruct Hsign as [->| ->]; simpl; [|reflexivity].
      destruct Hint as [Hne Hall]. destruct int as [|c int]; [contradiction|].
      inversion Hall as [|? ? Hc _]; subst. simpl.
      destruct (c =? 45) eqn:E; [|reflexivity].
      apply N.eqb_eq in E. subst. discriminate. }
    rewrite Hm. destruct Hfrac as [->|(f & -> & Hf)].
    + rewrite (digits1_app int [] Hint I). reflexivity.
    + rewrite (digits1_app int (46 :: f) Hint eq_refl). simpl andb.
      rewrite <- (app_nil_r f), (digits1_app f [] Hf I). reflexivity.
Qed.

Section ParseFacts.
Context {R : Runtime}.
Implicit Types (v : val R) (stk : list frame) (st : pstate).

Lemma wf_value_arr (elems : list (val R)) :
  wf_value (VArr elems) <-> Forall wf_value elems.
Proof.
  simpl. induction elems as [|x r IH]; split; intros H.
  - constructor.
  - exact I.
  - destruct H as [Hx Hr]. constructor; [exact Hx|now apply IH].
  - inversion H; subst. split; [assumption|now apply IH].
Qed.

Lemma wf_value_obj (ps : props (val R)) : wf_value (VObj ps) <-> wf_entries ps.
Proof.
  unfold wf_entries. simpl.
  assert (H : (fix all (l : props (val R)) : Prop :=
                 match l with
                 | [] => True
                 | kv :: r => wf_value (snd kv) /\ all r
                 end) ps <-> Forall (fun kv => wf_value (snd kv)) ps).
  { induction ps as [|x r IH]; split; intros H.
    - constructor.
    - exact I.
    - destruct H as [Hx Hr]. constructor; [exact Hx|now apply IH].
    - inversion H; subst. split; [assumption|now apply IH]. }
  tauto.
Qed.

Lemma wf_entries_define (k : jstr) v (ps : props (val R)) :
  wf_value v -> wf_entries ps -> wf_entries (define_own k v ps).
Proof.
  intros Hv [Hw Ha]. split.
  - now apply define_own_wf.
  - now apply define_own_Forall.
Qed.

Lemma reduce_wf v stk : wf_value v -> Forall wf_frame stk -> wf_pstate (reduce v stk).
Proof.
  intros Hv Hs. destruct stk as [|[acc|ps k] stk]; simpl.
  - exact Hv.
  - inversion Hs; subst. split; [constructor|]; assumption.
  - inversion Hs; subst. split; [now apply wf_entries_define|assumption].
Qed.

Lemma parse_value_wf stk (t : token) st :
  Forall wf_frame stk -> parse_value stk t = Some st -> wf_pstate st.
Proof.
  intros Hs. destruct t; simpl; try discriminate.
  - intros [= <-]. exact Hs.
  - intros [= <-]. exact Hs.
  - intros [= <-]. now apply reduce_wf.
  - intros [= <-]. now apply reduce_wf.
  - unfold word_value.
    destruct (jstr_eqb w (str "true")); [intros [= <-]; now apply reduce_wf|].
    destruct (jstr_eqb w (str "false")); [intros [= <-]; now apply reduce_wf|].
    destruct (jstr_eqb w (str "null")); [intros [= <-]; now apply reduce_wf|].
    discriminate.
Qed.

Lemma wf_entries_nil : wf_entries (@nil (jstr * val R)).
Proof. split; constructor. Qed.

Lemma parse_step_wf st (t : token) st' :
  wf_pstate st -> parse_step st t = Some st' -> wf_pstate st'.
Proof.
  destruct st as [stk|stk|stk|ps stk|ps k stk|acc stk|ps stk|v]; simpl; intros Hw.
  - now apply parse_value_wf.
  - assert (Hs : Forall wf_frame (FArr [] :: stk)) by (constructor; [constructor|exact Hw]).
    destruct t; try (now apply parse_value_wf).
    intros [= <-]. apply reduce_wf; [now apply wf_value_arr|exact Hw].
  - destruct t; try discriminate.
    + intros [= <-]. apply reduce_wf; [apply wf_value_obj, wf_entries_nil|exact Hw].
    + intros [= <-]. split; [apply wf_entries_nil|exact Hw].
  - destruct t; try discriminate. intros [= <-]. exact Hw.
  - destruct t; try discriminate. intros [= <-]. destruct Hw as [Hp Hs].
    constructor; assumption.
  - destruct Hw as [Ha Hs]. destruct t; try discriminate.
    + intros [= <-]. apply reduce_wf; [|exact Hs].
      apply wf_value_arr. apply Forall_rev. exact Ha.
    + intros [= <-]. constructor; assumption.
  - destruct Hw as [Hp Hs]. destruct t; try discriminate.
    + intros [= <-]. apply reduce_wf; [now apply wf_value_obj|exact Hs].
    + intros [= <-]. split; assumption.
  - discriminate.
Qed.

Lemma parse_tokens_wf (ts : list token) st st' :
  wf_pstate st -> parse_tokens st ts = Some st' -> wf_pstate st'.
Proof.
  revert st. induction ts as [|t ts IH]; intros st Hw; simpl.
  - now intros [= <-].
  - destruct (parse_step st t) as [st1|] eqn:E; [|discriminate].
    apply IH. now apply (parse_step_wf st t).
Qed.

(** The objects of a parsed document have distinct keys, at any depth. *)
Lemma JSON_parse_wf (s : jstr) v : JSON_parse s = Some v -> wf_value v.
Proof.
  unfold JSON_parse. destruct (lex LDefault s) as [ts|]; [|discriminate].
  destruct (parse_tokens (PValue []) ts) as [[| | | | | | |v0]|] eqn:E; try discriminate.
  intros [= <-]. apply (parse_tokens_wf ts (PValue []) (PDone v0)); [constructor|exact E].
Qed.
End ParseFacts.

Section EditParserFacts.
Context {R : Runtime}.

(** [JSON.parse] on some texts: what it accepts, with the order of the
    keys of an object, and what it rejects. *)
Lemma JSON_parse_examples :
  JSON_parse (jtext " [1, 'a\u0041', true, null, {}] ")
  = Some (VArr [VNum (StringToNumber (str "1")); VStr (str "aA"); VBool true; VNull;
                VObj []]) /\
  JSON_parse (jtext "{'b':null,'2':null,'a':null,'1':null,'b':true}")
  = Some (VObj [(str "1", VNull); (str "2", VNull); (str "b", VBool true);
                (str "a", VNull)]) /\
  JSON_parse (jtext "-1.5e+3") = Some (VNum (StringToNumber (str "-1.5e+3"))) /\
  JSON_parse (str "") = None /\
  JSON_parse (str "01") = None /\
  JSON_parse (str "1.") = None /\
  JSON_parse (str "[1,]") = None /\
  JSON_parse (jtext "{'a':1,}") = None /\
  JSON_parse (jtext "{a:1}") = None /\
  JSON_parse (jtext "'abc") = None /\
  JSON_parse (str "abc") = None /\
  JSON_parse (str "1 2") = None /\
  JSON_parse (11 :: str "1") = None /\
  JSON_parse (str "NaN") = None.
Proof. repeat split; reflexivity. Qed.

(** C4.  [EditParser] is a function that returns a value for every text:
    the strict parse of the text when there is one; otherwise the trimmed
    text read as a number when it is a decimal literal, as a boolean when
    it is [true] or [false], as null when it is [null], and as itself, a
    string, in every other case. *)
Theorem EditParser_total_classification :
  (forall t : jstr,
      (exists v : val R, EditParser t = v) /\
      (forall v, JSON_parse t = Some v -> EditParser t = v) /\
      (JSON_parse t = None ->
       (decimal_literal (trim t) -> EditParser t = VNum (StringToNumber (trim t))) /\
       (trim t = str "true" -> EditParser t = VBool true) /\
       (trim t = str "false" -> EditParser t = VBool false) /\
       (trim t = str "null" -> EditParser t = VNull) /\
       (~ decimal_literal (trim t) -> trim t <> str "true" ->
        trim t <> str "false" -> trim t <> str "null" ->
        EditParser t = VStr (trim t)))) /\
  EditParser (str "42") = VNum (StringToNumber (str "42")) /\
  EditParser (str "true") = VBool true /\
  EditParser (str "null") = VNull /\
  EditParser (str "abc") = VStr (str "abc").
Proof.
  split; [|repeat split; reflexivity].
  intros t. split; [eexists; reflexivity|]. unfold EditParser. split.
  - intros v ->. reflexivity.
  - intros ->. repeat split.
    + intros H. apply number_regex_decimal_literal in H. now rewrite H.
    + intros ->. reflexivity.
    + intros ->. reflexivity.
    + intros ->. reflexivity.
    + intros Hn Ht Hf Hnull.
      destruct (number_regex (trim t)) eqn:E.
      { apply number_regex_decimal_literal in E. contradiction. }
      apply jstr_eqb_neq in Ht, Hf, Hnull. now rewrite Ht, Hf, Hnull.
Qed.

(** Every branch of the classification is taken by some text: [trim]
    removes more than the white space of JSON. *)
Lemma EditParser_fallback_examples :
  EditParser (str "007") = VNum (StringToNumber (str "007")) /\
  EditParser (11 :: str "true") = VBool true /\
  EditParser (11 :: str "false") = VBool false /\
  EditParser (11 :: str "null") = VNull /\
  EditParser (str " 1e5x ") = VStr (str "1e5x").
Proof. repeat split; reflexivity. Qed.
End EditParserFacts.

(** The fallback at work: a vertical tab is no white space of JSON, and a
    leading zero is no JSON number. *)
Lemma EditParser_total_classification_witness :
  EditParser (R := Example.runtime) (11 :: str "true") = VBool true /\
  EditParser (R := Example.runtime) (str "007") = Example.int 7.
Proof.
  destruct (EditParser_total_classification (R := Example.runtime)) as [H _].
  split.
  - destruct (H (11 :: str "true")) as (_ & _ & Hf).
    destruct (Hf eq_refl) as (_ & Ht & _). apply Ht. reflexivity.
  - destruct (H (str "007")) as (_ & _ & Hf).
    destruct (Hf eq_refl) as (Hn & _).
    change (Example.int 7) with (VNum (StringToNumber (trim (str "007"))) : val Example.runtime).
    apply Hn. apply number_regex_decimal_literal. reflexivity.
Defined.

Lemma EditParser_example_42 :
  EditParser (R := Example.runtime) (str "42") = Example.int 42.
Proof. reflexivity. Qed.

(** ** [normalizeNodeData] (lines 13-24) *)

Section NormalizeFacts.
Context {R : Runtime}.
Implicit Types (o : jsobject) (rows : list (NodeRow number)).

Lemma add_row_skipped o (r : NodeRow number) : kept_row r = false -> add_row o r = o.
Proof.
  unfold kept_row, add_row. destruct (is_container r); simpl; [reflexivity|].
  intros ->. now destruct (key r).
Qed.

Lemma add_row_kept o (r : NodeRow number) :
  kept_row r = true -> exists k, key r = Some k /\ k <> [] /\ add_row o r = assign k (value_ r) o.
Proof.
  unfold kept_row, add_row. destruct (is_container r); simpl; [discriminate|].
  destruct (key r) as [[|c k]|]; simpl; try discriminate.
  intros _. exists (c :: k). repeat split. discriminate.
Qed.

(** The rows that are skipped leave no trace. *)
Lemma fold_add_row_filter rows o :
  fold_left add_row rows o = fold_left add_row (filter kept_row rows) o.
Proof.
  revert o. induction rows as [|r rows IH]; intros o; simpl; [reflexivity|].
  destruct (kept_row r) eqn:E; simpl.
  - apply IH.
  - rewrite (add_row_skipped o r E). apply IH.
Qed.

Lemma assign_wf k v o : wf_props (own o) -> wf_props (own (assign k v o)).
Proof.
  intros H. unfold assign. destruct (lookup k (own o)); simpl.
  - now apply define_own_wf.
  - destruct (has_proto o && jstr_eqb k (str "__proto__")); simpl.
    + now destruct v.
    + now apply define_own_wf.
Qed.

Lemma assign_keys k v o k0 :
  In k0 (keys (own (assign k v o))) -> k0 = k \/ In k0 (keys (own o)).
Proof.
  unfold assign. destruct (lookup k (own o)); simpl.
  - apply keys_define_own.
  - destruct (has_proto o && jstr_eqb k (str "__proto__")); simpl.
    + destruct v; simpl; auto.
    + apply keys_define_own.
Qed.

Lemma lookup_assign k v o k0 :
  wf_props (own o) -> k <> str "__proto__" ->
  lookup k0 (own (assign k v o)) = if jstr_eqb k k0 then Some v else lookup k0 (own o).
Proof.
  intros H Hk. unfold assign. apply jstr_eqb_neq in Hk. rewrite Hk, andb_false_r.
  destruct (lookup k (own o)); simpl; now apply lookup_define_own.
Qed.

(** An assignment to [__proto__] changes no other key. *)
Lemma lookup_assign_other k v o k0 :
  wf_props (own o) -> k <> k0 ->
  lookup k0 (own (assign k v o)) = lookup k0 (own o).
Proof.
  intros H Hk. apply jstr_eqb_neq in Hk. unfold assign.
  destruct (lookup k (own o)); simpl.
  - now rewrite lookup_define_own, Hk.
  - destruct (has_proto o && jstr_eqb k (str "__proto__")); simpl.
    + now destruct v.
    + now rewrite lookup_define_own, Hk.
Qed.

Lemma add_row_wf o (r : NodeRow number) : wf_props (own o) -> wf_props (own (add_row o r)).
Proof.
  intros H. destruct (kept_row r) eqn:E.
  - destruct (add_row_kept o r E) as (k & _ & _ & ->). now apply assign_wf.
  - now rewrite add_row_skipped.
Qed.

Lemma fold_add_row_keys rows o k :
  In k (keys (own (fold_left add_row rows o))) ->
  In k (keys (own o)) \/
  exists r, In r rows /\ key r = Some k /\ is_container r = false.
Proof.
  revert o. induction rows as [|r rows IH]; intros o; simpl; [now left|].
  intros H. apply IH in H as [H|(r' & Hin & Hk & Hc)]; [|right; eauto].
  destruct (kept_row r) eqn:E.
  - destruct (add_row_kept o r E) as (k' & Hk' & _ & Ha). rewrite Ha in H.
    apply assign_keys in H as [->|H]; [|now left].
    right. exists r. repeat split; auto.
    unfold kept_row in E. now destruct (is_container r).
  - rewrite add_row_skipped in H by exact E. now left.
Qed.

Lemma lookup_assign_inv k v o k0 v0 :
  wf_props (own o) ->
  lookup k0 (own (assign k v o)) = Some v0 ->
  (k = k0 /\ v = v0) \/ lookup k0 (own o) = Some v0.
Proof.
  intros Hwf. unfold assign.
  assert (Hd : lookup k0 (define_own k v (own o)) = Some v0 ->
               (k = k0 /\ v = v0) \/ lookup k0 (own o) = Some v0).
  { rewrite lookup_define_own by exact Hwf.
    destruct (jstr_eqb k k0) eqn:E; [|now right].
    apply jstr_eqb_eq in E. intros [= ->]. now left. }
  destruct (lookup k (own o)); simpl; [exact Hd|].
  destruct (has_proto o && jstr_eqb k (str "__proto__")); simpl; [|exact Hd].
  destruct v; simpl; now right.
Qed.

(** Every entry of the object comes from a row that is kept. *)
Lemma fold_add_row_entries rows o k v :
  wf_props (own o) ->
  lookup k (own (fold_left add_row rows o)) = Some v ->
  lookup k (own o) = Some v \/
  exists r, In r rows /\ key r = Some k /\ value_ r = v /\ is_container r = false.
Proof.
  revert o. induction rows as [|r rows IH]; intros o Hwf; simpl; [now left|].
  intros H. apply IH in H as [H|(r' & Hin & Hk & Hv & Hc)];
    [|right; exists r'; auto|now apply add_row_wf].
  destruct (kept_row r) eqn:E.
  - destruct (add_row_kept o r E) as (k' & Hk' & _ & Ha). rewrite Ha in H.
    apply lookup_assign_inv in H as [[-> Hv]|H]; [|now left|exact Hwf].
    right. exists r. repeat split; auto.
    unfold kept_row in E. now destruct (is_container r).
  - rewrite add_row_skipped in H by exact E. now left.
Qed.

Lemma fold_add_row_lookup rows o k :
  wf_props (own o) -> k <> str "__proto__" ->
  lookup k (own (fold_left add_row rows o))
  = match lookup k (row_entries rows) with
    | Some v => Some v
    | None => lookup k (own o)
    end.
Proof.
  intros Hwf Hk. revert o Hwf.
  induction rows as [|r rows IH]; intros o Hwf; simpl; [reflexivity|].
  rewrite (IH _ (add_row_wf o r Hwf)).
  assert (Hl : forall a b : props (scalar number),
             lookup k (a ++ b)
             = match lookup k b with Some v => Some v | None => lookup k a end).
  { intros a b. induction a as [|[k' v'] a IHa]; simpl.
    - now destruct (lookup k b).
    - rewrite IHa. destruct (lookup k b); [reflexivity|]. reflexivity. }
  rewrite Hl. destruct (lookup k (row_entries rows)); [reflexivity|].
  destruct (kept_row r) eqn:E.
  - destruct (add_row_kept o r E) as (k' & Hk' & _ & Ha). rewrite Ha, Hk'. simpl.
    destruct (jstr_eqb k' k) eqn:Ek.
    + apply jstr_eqb_eq in Ek. subst k'.
      rewrite lookup_assign, jstr_eqb_refl by assumption. reflexivity.
    + apply jstr_eqb_neq in Ek. now rewrite lookup_assign_other.
  - rewrite add_row_skipped by exact E.
    destruct (key r); simpl; reflexivity.
Qed.

(** C6.  [normalizeNodeData] is a function whose rules apply in order: no
    rows, or an empty sequence of rows, give ["{}"]; two rows or more give
    the text that [JSON.stringify(obj, null, 2)] prints (two spaces of
    indentation) for the mapping built from the rows, in which the rows
    typed array or object and the rows without a key are skipped.  So every
    key that is printed, and every entry, comes from a row that is typed
    neither array nor object. *)
Theorem normalizeNodeData_rules rows :
  (2 <= List.length rows)%nat ->
  normalizeNodeData None = str "{}" /\
  normalizeNodeData (Some []) = str "{}" /\
  normalizeNodeData (Some rows) = JSON_stringify_object2 (own (rows_object rows)) /\
  rows_object rows = rows_object (filter kept_row rows) /\
  (forall k, k <> str "__proto__" ->
             lookup k (own (rows_object rows)) = lookup k (row_entries rows)) /\
  (forall k, In k (keys (own (rows_object rows))) ->
             exists r, In r rows /\ key r = Some k /\ is_container r = false) /\
  (forall k v, lookup k (own (rows_object rows)) = Some v ->
               exists r, In r rows /\ key r = Some k /\ value_ r = v /\
                         is_container r = false).
Proof.
  intros Hlen. repeat split.
  - destruct rows as [|r1 [|r2 rows]]; simpl in Hlen; try lia. reflexivity.
  - apply fold_add_row_filter.
  - intros k Hk. unfold rows_object.
    rewrite fold_add_row_lookup; [|apply wf_props_nil|exact Hk].
    now destruct (lookup k (row_entries rows)).
  - intros k Hk. unfold rows_object in Hk.
    apply fold_add_row_keys in Hk as [[]|Hk]. exact Hk.
  - intros k v Hk. unfold rows_object in Hk.
    apply fold_add_row_entries in Hk as [Hk|Hk];
      [discriminate|exact Hk|apply wf_props_nil].
Qed.

(** C7, as the code has it.  A single row without a key gives its value
    as raw text, the string conversion of the value: a string is returned
    as it is, without the quotes of JSON; for null, a boolean and a finite
    number the text is the one [JSON.stringify] prints. *)
Theorem normalizeNodeData_single_keyless (row : NodeRow number) :
  truthy_key (key row) = false ->
  normalizeNodeData (Some [row]) = ToString (value_ row) /\
  (forall s, value_ row = SStr s -> normalizeNodeData (Some [row]) = s) /\
  (value_ row = SNull \/ (exists b, value_ row = SBool b) \/
   (exists n, value_ row = SNum n /\ isFinite n = true) ->
   JSON_stringify_scalar (value_ row) = Some (normalizeNodeData (Some [row]))).
Proof.
  intros Hk. unfold normalizeNodeData. rewrite Hk. simpl. repeat split.
  - intros s ->. reflexivity.
  - intros [->|[(b & ->)|(n & -> & Hn)]]; simpl; try reflexivity.
    now rewrite Hn.
Qed.
End NormalizeFacts.

Lemma normalizeNodeData_rules_witness :
  normalizeNodeData (R := Example.runtime) None = str "{}" /\
  normalizeNodeData (R := Example.runtime) (Some []) = str "{}" /\
  normalizeNodeData (Some Example.rows_abc)
  = JSON_stringify_object2 (own (rows_object Example.rows_abc)) /\
  rows_object Example.rows_abc = rows_object (filter kept_row Example.rows_abc) /\
  (forall k, k <> str "__proto__" ->
             lookup k (own (rows_object Example.rows_abc))
             = lookup k (row_entries Example.rows_abc)) /\
  (forall k, In k (keys (own (rows_object Example.rows_abc))) ->
             exists r, In r Example.rows_abc /\ key r = Some k /\ is_container r = false) /\
  (forall k v, lookup k (own (rows_object Example.rows_abc)) = Some v ->
               exists r, In r Example.rows_abc /\ key r = Some k /\ value_ r = v /\
                         is_container r = false).
Proof.
  apply (normalizeNodeData_rules (R := Example.runtime) Example.rows_abc).
  simpl. lia.
Defined.

(** The text of the example: the row typed object and the row without a
    key are not printed. *)
Lemma normalizeNodeData_example :
  normalizeNodeData (Some Example.rows_abc)
  = jtext "{" ++ [LF] ++ jtext "  'a': 1," ++ [LF]
    ++ jtext "  'b': 'x'" ++ [LF] ++ jtext "}".
Proof. reflexivity. Qed.

(** On a string the raw text is not what [JSON.stringify] prints: the row
    gives the three code units of [abc], and [JSON.stringify] gives five,
    with the quotes. *)
Lemma normalizeNodeData_string_is_not_stringify :
  Some (normalizeNodeData (Some [Example.row_abc]))
  <> JSON_stringify_scalar (value_ Example.row_abc).
Proof. discriminate. Qed.

Lemma normalizeNodeData_single_keyless_witness :
  normalizeNodeData (Some [Example.row_abc]) = ToString (value_ Example.row_abc) /\
  (forall s, value_ Example.row_abc = SStr s ->
             normalizeNodeData (Some [Example.row_abc]) = s) /\
  (value_ Example.row_abc = SNull \/ (exists b, value_ Example.row_abc = SBool b) \/
   (exists n, value_ Example.row_abc = SNum n /\ isFinite n = true) ->
   JSON_stringify_scalar (value_ Example.row_abc)
   = Some (normalizeNodeData (Some [Example.row_abc]))).
Proof.
  apply (normalizeNodeData_single_keyless (R := Example.runtime) Example.row_abc).
  reflexivity.
Defined.

(** ** [JSON.stringify] tells paths apart (line 120) *)

Lemma uint_units_inj (d d' : Decimal.uint) : uint_units d = uint_units d' -> d = d'.
Proof.
  revert d'. induction d; intros d'; destruct d'; simpl; try discriminate;
    try reflexivity; intros [= H]; f_equal; auto.
Qed.

Lemma uint_units_digits (d : Decimal.uint) :
  Forall (fun c => is_int_char c = true) (uint_units d).
Proof. induction d; simpl; constructor; auto. Qed.

Lemma Z_to_jstr_chars (z : Z) : Forall (fun c => is_int_char c = true) (Z_to_jstr z).
Proof.
  unfold Z_to_jstr. destruct (Z.to_int z).
  - apply uint_units_digits.
  - constructor; [reflexivity|apply uint_units_digits].
Qed.

Lemma Z_to_jstr_nonempty (z : Z) : Z_to_jstr z <> [].
Proof.
  unfold Z_to_jstr. destruct (Z.to_int z) as [d|d] eqn:E; [|discriminate].
  intros H. destruct d; try discriminate.
  pose proof (DecimalZ.of_to z) as Hz. rewrite E in Hz. simpl in Hz. subst z.
  discriminate.
Qed.

Lemma Z_to_jstr_inj (a b : Z) : Z_to_jstr a = Z_to_jstr b -> a = b.
Proof.
  unfold Z_to_jstr. intros H. apply DecimalZ.to_int_inj.
  destruct (Z.to_int a) as [d|d], (Z.to_int b) as [d'|d'].
  - f_equal. now apply uint_units_inj.
  - pose proof (uint_units_digits d) as Hd. rewrite H in Hd.
    inversion Hd. 
    destruct d; discriminate.
  - destruct d'; discriminate.
  - injection H as H. f_equal. now apply uint_units_inj.
Qed.

Lemma span_unique (P : N -> bool) (l1 l2 : jstr) (x1 x2 : N) (r1 r2 : jstr) :
  Forall (fun c => P c = true) l1 -> Forall (fun c => P c = true) l2 ->
  P x1 = false -> P x2 = false ->
  l1 ++ x1 :: r1 = l2 ++ x2 :: r2 -> l1 = l2 /\ x1 :: r1 = x2 :: r2.
Proof.
  intros H1. revert l2. induction H1 as [|c l1 Hc _ IH]; intros l2 H2 Hx1 Hx2 H.
  - destruct H2 as [|c l2 Hc _]; simpl in H; [auto|].
    injection H as -> _. congruence.
  - destruct H2 as [|c' l2 Hc' H2]; simpl in H.
    + injection H as -> _. congruence.
    + injection H as -> H. destruct (IH l2 H2 Hx1 Hx2 H) as [-> E]. auto.
Qed.

Lemma hex_digit_inj (a b : N) : a < 16 -> b < 16 -> hex_digit a = hex_digit b -> a = b.
Proof.
  unfold hex_digit. intros Ha Hb.
  destruct (N.ltb_spec a 10), (N.ltb_spec b 10); lia.
Qed.

Lemma unicode_escape_inj (a b : N) :
  a < 65536 -> b < 65536 -> unicode_escape a = unicode_escape b -> a = b.
Proof.
  unfold unicode_escape. intros Ha Hb [= H3 H2 H1 H0].
  apply hex_digit_inj in H3, H2, H1, H0;
    try (apply N.mod_lt; lia);
    try (apply N.Div0.div_lt_upper_bound; lia).
  rewrite (N.div_mod a 16), (N.div_mod b 16) by lia.
  rewrite H0. f_equal. f_equal.
  rewrite (N.div_mod (a / 16) 16), (N.div_mod (b / 16) 16) by lia.
  rewrite H1. f_equal. f_equal.
  rewrite !N.Div0.div_div.
  change (16 * 16) with 256.
  rewrite (N.div_mod (a / 256) 16), (N.div_mod (b / 256) 16) by lia.
  rewrite H2. f_equal. f_equal.
  rewrite !N.Div0.div_div. exact H3.
Qed.

Lemma short_escape_inj (a b e : N) :
  short_escape a = Some e -> short_escape b = Some e -> a = b.
Proof.
  unfold short_escape, QUOTE, BACKSLASH.
  repeat match goal with
         | |- context [N.eqb ?x ?y] => destruct (N.eqb_spec x y); [subst|]
         end; intros [= <-] H; try discriminate H; reflexivity.
Qed.

Lemma short_escape_not_u (a e : N) : short_escape a = Some e -> e <> 117.
Proof.
  unfold short_escape, QUOTE, BACKSLASH.
  repeat match goal with
         | |- context [N.eqb ?x ?y] => destruct (N.eqb_spec x y)
         end; intros [= <-]; discriminate.
Qed.

Lemma short_escape_None (c : N) :
  short_escape c = None -> c <> QUOTE /\ c <> BACKSLASH.
Proof.
  unfold short_escape.
  repeat match goal with
         | |- context [N.eqb ?x ?y] => destruct (N.eqb_spec x y)
         end; try discriminate. auto.
Qed.

Lemma quote_unit_form (paired : bool) (c : N) : unit_form c (quote_unit paired c).
Proof.
  unfold quote_unit. destruct (short_escape c) as [e|] eqn:E.
  - now apply form_short.
  - apply short_escape_None in E as [Hq Hb].
    destruct (N.ltb_spec c 32); [apply form_unicode; lia|].
    destruct ((is_high c || is_low c) && negb paired) eqn:Es.
    + apply form_unicode. apply andb_true_iff in Es as [Es _].
      unfold is_high, is_low in Es.
      apply orb_true_iff in Es as [Es|Es]; apply andb_true_iff in Es as [_ Es];
        apply N.leb_le in Es; lia.
    + now apply form_raw.
Qed.

Lemma unit_form_inj (c1 c2 : N) (u1 u2 t1 t2 : jstr) :
  unit_form c1 u1 -> unit_form c2 u2 -> u1 ++ t1 = u2 ++ t2 ->
  c1 = c2 /\ u1 = u2 /\ t1 = t2.
Proof.
  intros [Hq1 Hb1|e1 He1|Hc1] [Hq2 Hb2|e2 He2|Hc2]; simpl; intros H.
  - injection H as -> ->. auto.
  - injection H as -> _. contradiction.
  - injection H as -> _. contradiction.
  - injection H as <- _. contradiction.
  - injection H as -> ->. pose proof (short_escape_inj _ _ _ He1 He2). subst. auto.
  - injection H as -> _. now apply short_escape_not_u in He1.
  - injection H as <- _. contradiction.
  - injection H as <- _. now apply short_escape_not_u in He2.
  - injection H as H3 H2 H1 H0 Ht.
    assert (c1 = c2).
    { apply unicode_escape_inj; try assumption.
      unfold unicode_escape. congruence. }
    subst. auto.
Qed.

Lemma unit_form_not_quote (c : N) (u t r : jstr) :
  unit_form c u -> u ++ t = QUOTE :: r -> False.
Proof.
  intros [Hq Hb|e He|Hc]; simpl; intros [= H]; try discriminate. congruence.
Qed.

Lemma quote_unit_paired (c : N) (p1 p2 : bool) :
  is_high c = true -> quote_unit p1 c = quote_unit p2 c -> p1 = p2.
Proof.
  intros Hh. unfold quote_unit.
  assert (Hc : 55296 <= c).
  { unfold is_high in Hh. apply andb_true_iff in Hh as [Hh _]. now apply N.leb_le. }
  destruct (short_escape c) as [e|] eqn:E.
  { exfalso. revert E. unfold short_escape, QUOTE, BACKSLASH.
    repeat match goal with
           | |- context [N.eqb ?x ?y] => destruct (N.eqb_spec x y); [lia|]
           end. discriminate. }
  destruct (N.ltb_spec c 32); [lia|]. rewrite Hh. simpl.
  destruct p1, p2; simpl; try reflexivity; unfold unicode_escape; discriminate.
Qed.

Lemma quote_body_inj (s1 : jstr) : forall (f : bool) (s2 r1 r2 : jstr),
  quote_body f s1 ++ QUOTE :: r1 = quote_body f s2 ++ QUOTE :: r2 ->
  s1 = s2 /\ r1 = r2.
Proof.
  induction s1 as [|c1 s1 IH]; intros f [|c2 s2] r1 r2; simpl.
  - intros [= ->]. auto.
  - intros H. symmetry in H. rewrite <- app_assoc in H.
    exfalso. eapply unit_form_not_quote; [apply quote_unit_form|exact H].
  - intros H. rewrite <- app_assoc in H.
    exfalso. eapply unit_form_not_quote; [apply quote_unit_form|exact H].
  - rewrite <- !app_assoc. intros H.
    apply unit_form_inj with (c1 := c1) (c2 := c2) in H; try apply quote_unit_form.
    destruct H as (-> & Hu & H).
    assert (Hf : (negb f && is_high c2 && next_is_low s1)
                 = (negb f && is_high c2 && next_is_low s2)).
    { destruct f; [reflexivity|]. cbn [negb andb orb] in Hu |- *.
      destruct (is_high c2) eqn:Hh; [|reflexivity]. cbn [andb] in Hu |- *.
      now apply quote_unit_paired in Hu. }
    rewrite Hf in H. apply IH in H as [-> ->]. auto.
Qed.

Lemma quote_inj (s1 s2 r1 r2 : jstr) :
  quote s1 ++ r1 = quote s2 ++ r2 -> s1 = s2 /\ r1 = r2.
Proof.
  unfold quote. simpl. rewrite <- !app_assoc. simpl. intros [= H].
  now apply quote_body_inj in H.
Qed.

Lemma segment_json_head (a : segment) :
  exists h t, segment_json a = h :: t /\ h <> 44 /\ h <> 93.
Proof.
  destruct a as [s|z]; simpl.
  - exists QUOTE, (quote_body false s ++ [QUOTE]). repeat split; discriminate.
  - pose proof (Z_to_jstr_chars z) as Hc. pose proof (Z_to_jstr_nonempty z) as Hn.
    destruct (Z_to_jstr z) as [|h t]; [contradiction|].
    exists h, t. inversion Hc as [|? ? Hh _]; subst.
    repeat split; intros ->; discriminate.
Qed.

Lemma segment_json_inj (a b : segment) (x1 x2 : N) (t1 t2 : jstr) :
  is_sep x1 -> is_sep x2 ->
  segment_json a ++ x1 :: t1 = segment_json b ++ x2 :: t2 ->
  a = b /\ x1 :: t1 = x2 :: t2.
Proof.
  intros H1 H2. destruct a as [s1|z1], b as [s2|z2]; simpl segment_json; intros H.
  - apply quote_inj in H as [-> H]. auto.
  - exfalso. pose proof (Z_to_jstr_chars z2) as Hc. pose proof (Z_to_jstr_nonempty z2) as Hn.
    destruct (Z_to_jstr z2) as [|h t]; [contradiction|].
    inversion Hc as [|? ? Hh _]; subst. injection H as <- _. discriminate.
  - exfalso. pose proof (Z_to_jstr_chars z1) as Hc. pose proof (Z_to_jstr_nonempty z1) as Hn.
    destruct (Z_to_jstr z1) as [|h t]; [contradiction|].
    inversion Hc as [|? ? Hh _]; subst. injection H as -> _. discriminate.
  - apply (span_unique is_int_char) in H as [H Ht];
      try apply Z_to_jstr_chars;
      try (destruct H1 as [-> | ->]; reflexivity);
      try (destruct H2 as [-> | ->]; reflexivity).
    apply Z_to_jstr_inj in H. subst. auto.
Qed.

Lemma path_tail_cons (a : segment) (segs : JSONPath) :
  exists x t, is_sep x /\ path_tail (a :: segs) = segment_json a ++ x :: t /\
              (segs = [] -> x = 93) /\
              (segs <> [] -> x = 44 /\ t = path_tail segs).
Proof.
  unfold path_tail. destruct segs as [|b segs].
  - exists 93, []. simpl. repeat split; auto; [now right|contradiction|contradiction].
  - exists 44, (path_tail (b :: segs)). unfold path_tail.
    repeat split; try discriminate; [now left|].
    cbn [map join]. destruct (map segment_json segs);
      rewrite <- ?app_assoc; reflexivity.
Qed.

Lemma path_tail_inj (p q : JSONPath) : path_tail p = path_tail q -> p = q.
Proof.
  revert q. induction p as [|a p IH]; intros [|b q] H.
  - reflexivity.
  - exfalso. destruct (path_tail_cons b q) as (x & t & _ & E & _).
    destruct (segment_json_head b) as (h & u & Eh & _ & Hh).
    rewrite E, Eh in H. injection H as <- _. now apply Hh.
  - exfalso. destruct (path_tail_cons a p) as (x & t & _ & E & _).
    destruct (segment_json_head a) as (h & u & Eh & _ & Hh).
    rewrite E, Eh in H. injection H as -> _. now apply Hh.
  - destruct (path_tail_cons a p) as (x1 & t1 & Hx1 & E1 & Hn1 & Hc1).
    destruct (path_tail_cons b q) as (x2 & t2 & Hx2 & E2 & Hn2 & Hc2).
    rewrite E1, E2 in H.
    apply segment_json_inj in H as [-> H]; try assumption.
    injection H as Hx Ht. f_equal.
    destruct p as [|a' p], q as [|b' q]; try reflexivity.
    + rewrite Hn1 in Hx by reflexivity.
      destruct Hc2 as [Hc2 _]; [discriminate|]. subst. discriminate.
    + rewrite Hn2 in Hx by reflexivity.
      destruct Hc1 as [Hc1 _]; [discriminate|]. subst. discriminate.
    + destruct Hc1 as [_ Hc1]; [discriminate|].
      destruct Hc2 as [_ Hc2]; [discriminate|].
      apply IH. congruence.
Qed.

Lemma JSON_stringify_path_inj (p q : option JSONPath) :
  JSON_stringify_path p = JSON_stringify_path q -> p = q.
Proof.
  destruct p as [p|], q as [q|]; simpl; try discriminate; try reflexivity.
  intros [= H]. f_equal. apply path_tail_inj. exact H.
Qed.

(** ** The handlers and the effect *)

Section HandlerFacts.
Context {R : Runtime}.
Implicit Types (w : World R) (n : NodeData number).

Lemma option_jstr_eqb_eq (a b : option jstr) : option_jstr_eqb a b = true <-> a = b.
Proof.
  destruct a as [a|], b as [b|]; simpl; split; try congruence; try reflexivity.
  - intros H. apply jstr_eqb_eq in H. congruence.
  - intros [= ->]. apply jstr_eqb_refl.
Qed.

(** The comparison of the rendered paths is the equality of the paths. *)
Lemma same_path_spec (p : JSONPath) n : same_path p n = true <-> path n = Some p.
Proof.
  unfold same_path. rewrite option_jstr_eqb_eq. split.
  - apply JSON_stringify_path_inj.
  - now intros ->.
Qed.

Lemma find_first {A : Type} (f : A -> bool) (before after : list A) (m : A) :
  f m = true -> (forall x, In x before -> f x = false) ->
  find f (before ++ m :: after) = Some m.
Proof.
  intros Hm. induction before as [|x before IH]; intros Hb; simpl.
  - now rewrite Hm.
  - rewrite (Hb x (or_introl eq_refl)). apply IH. intros y Hy. apply Hb. now right.
Qed.

Lemma render_rendered w : rendered (render w).
Proof.
  unfold render, rendered. destruct (same_deps (deps w) (effect_deps w)) eqn:E.
  - unfold same_deps in E. destruct (deps w) as [[o i]|]; [|discriminate].
    apply andb_true_iff in E as [E1 E2].
    apply Bool.eqb_prop in E1. apply option_jstr_eqb_eq in E2.
    destruct (effect_deps w). simpl in *. congruence.
  - reflexivity.
Qed.

(** A render with the dependencies of the render before runs no effect. *)
Lemma render_stable w : deps w = Some (effect_deps w) -> render w = w.
Proof.
  unfold render, same_deps. intros ->. destruct (effect_deps w) as [o i]. simpl.
  rewrite Bool.eqb_reflx.
  assert (H : option_jstr_eqb i i = true) by now apply option_jstr_eqb_eq.
  now rewrite H.
Qed.

(** The first render runs the effect. *)
Lemma render_first w :
  deps w = None -> editing (render w) = false /\ editedText (render w) = [].
Proof. unfold render. intros ->. simpl. auto. Qed.

(** C8.  In a world that has been rendered, opening the modal, and
    selecting a node of another identity while the modal is open, leave
    the session viewing ([editing] is false) with an empty edit buffer,
    whatever the state before was. *)
Theorem editor_reset_on_open_or_select w :
  rendered w ->
  (opened w = false ->
   editing (open_modal w) = false /\ editedText (open_modal w) = []) /\
  (forall sel : option (NodeData number),
      opened w = true ->
      option_map id sel <> option_map id (selectedNode w) ->
      editing (select_node sel w) = false /\ editedText (select_node sel w) = []).
Proof.
  unfold rendered, effect_deps. intros Hd. split.
  - intros Ho. unfold open_modal, render, effect_deps. simpl.
    rewrite Hd, Ho. simpl. auto.
  - intros sel Ho Hs. unfold select_node, render, effect_deps. simpl.
    rewrite Hd, Ho. simpl.
    destruct (option_jstr_eqb (option_map id (selectedNode w)) (option_map id sel)) eqn:E.
    + apply option_jstr_eqb_eq in E. congruence.
    + simpl. auto.
Qed.

(** C10.  With no node selected, [handleSave] returns at once: the world
    is the one before, and with it the document, the editing flag and the
    edit buffer; the edit buffer plays no part. *)
Theorem handleSave_no_selection w :
  selectedNode w = None ->
  handleSave w = w /\
  (forall t, handleSave (setEditedText t w) = setEditedText t w).
Proof.
  intros H. unfold handleSave. split.
  - now rewrite H.
  - intros t. simpl. now rewrite H.
Qed.

(** C3.  When [modify] throws, or [applyEdits] throws on its edits, the
    save does nothing but warn: the document and its mirror, the graph,
    the selection, the editing flag and the edit buffer are the ones
    before, and the console has one more line, with the error; the render
    that follows resets nothing. *)
Theorem handleSave_patch_failure w n (err : exn) :
  selectedNode w = Some n ->
  (modify (json w) (node_path n) (valueToWrite w n) formattingOptions = Throw err \/
   exists edits,
     modify (json w) (node_path n) (valueToWrite w n) formattingOptions = Ok edits /\
     applyEdits (json w) edits = Throw err) ->
  handleSave w = console_warn (str "Failed to apply edit to JSON") err w /\
  json (handleSave w) = json w /\
  contents (handleSave w) = contents w /\
  hasChanges (handleSave w) = hasChanges w /\
  nodes (handleSave w) = nodes w /\
  selectedNode (handleSave w) = selectedNode w /\
  editing (handleSave w) = editing w /\
  editedText (handleSave w) = editedText w /\
  console (handleSave w) = console w ++ [(str "Failed to apply edit to JSON", err)] /\
  (rendered w -> render (handleSave w) = handleSave w).
Proof.
  intros Hn Hfail.
  assert (E : handleSave w = console_warn (str "Failed to apply edit to JSON") err w).
  { unfold handleSave, DocumentPatcher. rewrite Hn.
    destruct Hfail as [->|(edits & -> & ->)]; reflexivity. }
  rewrite E. repeat split.
  intros Hr. apply render_stable. exact Hr.
Qed.

(** C9.  After a save whose patch succeeds, the graph is the one rebuilt
    from the new text; the selection is the first node of it whose path is
    the path of the node that was edited, when there is one, and it is the
    selection before when there is none, with nothing warned. *)
Theorem handleSave_reselects w n (newJson : jstr) :
  selectedNode w = Some n ->
  DocumentPatcher (json w) (node_path n) (valueToWrite w n) = Ok newJson ->
  nodes (handleSave w) = buildGraph newJson /\
  ((exists x, In x (buildGraph newJson) /\ path x = Some (node_path n)) ->
   exists m, selectedNode (handleSave w) = Some m /\
             In m (buildGraph newJson) /\ path m = Some (node_path n)) /\
  (forall before m after,
      buildGraph newJson = before ++ m :: after ->
      path m = Some (node_path n) ->
      (forall x, In x before -> path x <> Some (node_path n)) ->
      selectedNode (handleSave w) = Some m) /\
  ((forall x, In x (buildGraph newJson) -> path x <> Some (node_path n)) ->
   selectedNode (handleSave w) = selectedNode w) /\
  console (handleSave w) = console w /\
  json (handleSave w) = newJson /\
  contents (handleSave w) = newJson /\
  hasChanges (handleSave w) = false /\
  editing (handleSave w) = false /\
  editedText (handleSave w) = [].
Proof.
  intros Hn Hp. unfold handleSave. rewrite Hn. cbv zeta. rewrite Hp.
  unfold reselect. simpl.
  destruct (find (same_path (node_path n)) (buildGraph newJson)) as [m0|] eqn:Ef;
    simpl; repeat split; try reflexivity.
  - intros _. exists m0. apply find_some in Ef as [Hin Hs].
    apply same_path_spec in Hs. auto.
  - intros before m after Hg Hm Hb. rewrite Hg in Ef.
    rewrite find_first in Ef.
    + congruence.
    + now apply same_path_spec.
    + intros x Hx. destruct (same_path (node_path n) x) eqn:E; [|reflexivity].
      apply same_path_spec in E. now apply Hb in Hx.
  - intros Hnone. apply find_some in Ef as [Hin Hs].
    apply same_path_spec in Hs. now apply Hnone in Hin.
  - intros (x & Hin & Hx). exfalso.
    apply (find_none _ _ Ef) in Hin. apply same_path_spec in Hx. congruence.
  - intros before m after Hg Hm Hb. exfalso.
    assert (Hin : In m (buildGraph newJson)).
    { rewrite Hg. apply in_or_app. right. now left. }
    apply (find_none _ _ Ef) in Hin.
    apply same_path_spec in Hm. congruence.
  - intros _. exact Hn.
Qed.
End HandlerFacts.

Lemma editor_reset_on_open_or_select_witness :
  (editing (open_modal (Example.world false None (str "x"))) = false /\
   editedText (open_modal (Example.world false None (str "x"))) = []) /\
  (editing (select_node (Some Example.other_node)
                        (Example.world true (Some Example.root_node) (str "x"))) = false /\
   editedText (select_node (Some Example.other_node)
                           (Example.world true (Some Example.root_node) (str "x"))) = []).
Proof.
  split.
  - apply (proj1 (editor_reset_on_open_or_select
                    (Example.world false None (str "x")) eq_refl)).
    reflexivity.
  - apply (proj2 (editor_reset_on_open_or_select
                    (Example.world true (Some Example.root_node) (str "x")) eq_refl)).
    + reflexivity.
    + discriminate.
Defined.

(** An edit in progress is dropped when the modal is opened, and when
    another node is selected while it is open. *)
Lemma editor_reset_examples :
  editing (Example.world false None (str "x")) = true /\
  editing (open_modal (Example.world false None (str "x"))) = false /\
  editedText (open_modal (Example.world false None (str "x"))) = [] /\
  editing (select_node (Some Example.other_node)
                       (Example.world true (Some Example.root_node) (str "x"))) = false /\
  editedText (select_node (Some Example.other_node)
                          (Example.world true (Some Example.root_node) (str "x"))) = [].
Proof. repeat split. Qed.

Lemma handleSave_no_selection_witness :
  handleSave (Example.world true None (str "5")) = Example.world true None (str "5") /\
  (forall t, handleSave (setEditedText t (Example.world true None (str "5")))
             = setEditedText t (Example.world true None (str "5"))).
Proof.
  apply (handleSave_no_selection (Example.world true None (str "5"))).
  reflexivity.
Defined.

Lemma handleSave_patch_failure_witness :
  handleSave (Example.world true (Some Example.root_node) (jtext "{'b':2}"))
  = console_warn (R := Example.runtime)
      (str "Failed to apply edit to JSON") (str "unsupported edit")
      (Example.world true (Some Example.root_node) (jtext "{'b':2}")).
Proof.
  refine (proj1 (handleSave_patch_failure
                   (Example.world true (Some Example.root_node) (jtext "{'b':2}"))
                   Example.root_node (str "unsupported edit") _ _)).
  - reflexivity.
  - left. reflexivity.
Defined.

(** The scenario of the specification: the root is replaced by [5]; the
    existing root is an object and the candidate is not, so nothing is
    merged; the root node of the new graph is selected. *)
Lemma handleSave_reselects_witness :
  selectedNode (handleSave (Example.world true (Some Example.root_node) (str "5")))
  = Some (mkNode (str "1") [] (Some [])) /\
  json (handleSave (Example.world true (Some Example.root_node) (str "5"))) = str "5".
Proof.
  destruct (handleSave_reselects
              (Example.world true (Some Example.root_node) (str "5"))
              Example.root_node (str "5") eq_refl eq_refl)
    as (_ & _ & Hsel & _ & _ & Hjson & _).
  split; [|exact Hjson].
  apply (Hsel [] (mkNode (str "1") [] (Some [])) []); [reflexivity|reflexivity|].
  intros x [].
Defined.

(** ** Further properties of the module *)

Section MoreFacts.
Context {R : Runtime}.
Implicit Types (w : World R) (o : jsobject).

Lemma join_cons2 (sep x y : jstr) (r : list jstr) :
  join sep (x :: y :: r) = x ++ sep ++ join sep (y :: r).
Proof. reflexivity. Qed.

(** [jsonPathToString] (lines 27-31): no path and the empty path give [$];
    any other path gives [$] followed by each segment in brackets, a string
    segment in double quotes and an integer segment bare. *)
Lemma jsonPathToString_spec :
  jsonPathToString None = str "$" /\
  jsonPathToString (Some []) = str "$" /\
  jsonPathToString (Some [SegKey (str "a"); SegIdx 0]) = jtext "$['a'][0]" /\
  forall seg segs,
    jsonPathToString (Some (seg :: segs))
    = str "$" ++ List.concat (map (fun x => str "[" ++ path_segment_text x ++ str "]")
                             (seg :: segs)).
Proof.
  repeat split. intros seg segs. unfold jsonPathToString.
  change (str "$[") with (str "$" ++ str "["). rewrite <- app_assoc. f_equal.
  revert seg. induction segs as [|b segs IH]; intros seg.
  - simpl. now rewrite app_nil_r.
  - change (map path_segment_text (seg :: b :: segs))
      with (path_segment_text seg :: path_segment_text b :: map path_segment_text segs).
    rewrite join_cons2.
    change (List.concat (map (fun x => str "[" ++ path_segment_text x ++ str "]")
                             (seg :: b :: segs)))
      with ((str "[" ++ path_segment_text seg ++ str "]")
              ++ List.concat (map (fun x => str "[" ++ path_segment_text x ++ str "]")
                                  (b :: segs))).
    rewrite <- (IH b). change (str "][") with (str "]" ++ str "[").
    cbn [map]. rewrite <- !app_assoc. reflexivity.
Qed.

(** [handleCancel] (lines 52-55) leaves the editor viewing with an empty
    buffer and touches nothing else; [handleEdit] (lines 47-50) starts an
    edit on the normalized rows of the selected node. *)
Lemma handleCancel_handleEdit_spec w :
  handleCancel w = setEditedText [] (setEditing false w) /\
  editing (handleCancel w) = false /\
  editedText (handleCancel w) = [] /\
  json (handleCancel w) = json w /\
  contents (handleCancel w) = contents w /\
  selectedNode (handleCancel w) = selectedNode w /\
  console (handleCancel w) = console w /\
  editing (handleEdit w) = true /\
  editedText (handleEdit w)
  = normalizeNodeData (Some (match selectedNode w with
                             | Some n => text n
                             | None => []
                             end)) /\
  json (handleEdit w) = json w /\
  selectedNode (handleEdit w) = selectedNode w.
Proof. repeat split. Qed.

(** A row keyed [__proto__] is not printed as long as no such row has the
    value null: the assignment of line 20 reaches the setter of
    [Object.prototype], which creates no property. *)
Lemma rows_object_proto (rows : list (NodeRow number)) :
  (forall r, In r rows -> kept_row r = true ->
             key r = Some (str "__proto__") -> value_ r <> SNull) ->
  has_proto (rows_object rows) = true /\
  lookup (str "__proto__") (own (rows_object rows)) = None.
Proof.
  unfold rows_object.
  assert (H : forall o,
             wf_props (own o) -> has_proto o = true ->
             lookup (str "__proto__") (own o) = None ->
             (forall r, In r rows -> kept_row r = true ->
                        key r = Some (str "__proto__") -> value_ r <> SNull) ->
             has_proto (fold_left add_row rows o) = true /\
             lookup (str "__proto__") (own (fold_left add_row rows o)) = None).
  { induction rows as [|r rows IH]; intros o Hwf Hp Hl Hrows; simpl; [auto|].
    assert (Hr : forall x, In x rows -> kept_row x = true ->
                           key x = Some (str "__proto__") -> value_ x <> SNull).
    { intros x Hx. apply Hrows. now right. }
    destruct (kept_row r) eqn:E.
    - destruct (add_row_kept o r E) as (k & Hk & _ & Ha). rewrite Ha.
      apply IH; [now apply assign_wf| | |exact Hr].
      + unfold assign. destruct (lookup k (own o)); [exact Hp|].
        destruct (has_proto o && jstr_eqb k (str "__proto__")) eqn:Eb; [|exact Hp].
        apply andb_true_iff in Eb as [_ Eb]. apply jstr_eqb_eq in Eb. subst k.
        specialize (Hrows r (or_introl eq_refl) E Hk).
        destruct (value_ r); try exact Hp. contradiction.
      + destruct (jstr_eqb k (str "__proto__")) eqn:Eb.
        * apply jstr_eqb_eq in Eb. subst k.
          unfold assign. rewrite Hl, Hp. simpl.
          destruct (value_ r); exact Hl.
        * apply jstr_eqb_neq in Eb. now rewrite lookup_assign_other.
    - rewrite add_row_skipped by exact E. now apply IH. }
  apply H; [apply wf_props_nil|reflexivity|reflexivity].
Qed.
End MoreFacts.

Lemma rows_object_proto_witness :
  has_proto (rows_object Example.rows_proto) = true /\
  lookup (str "__proto__") (own (rows_object Example.rows_proto)) = None.
Proof.
  apply (rows_object_proto (R := Example.runtime) Example.rows_proto).
  intros r [<-|[<-|[]]] _ H; simpl in *; discriminate.
Defined.

(** The rows of that example print as the single entry [a]. *)
Lemma normalizeNodeData_proto_example :
  normalizeNodeData (Some Example.rows_proto)
  = jtext "{" ++ [LF] ++ jtext "  'a': 1" ++ [LF] ++ jtext "}".
Proof. reflexivity. Qed.

(** The scenario of the specification: the document
    [{"user":{"name":"Al","age":1,"tags":["x"]}}], the path [["user"]] and
    the edit [{"age":2}] give the value [{"name":"Al","age":2,"tags":["x"]}]
    to write. *)
Lemma MergeResolver_scenario :
  MergeResolver (R := Example.runtime)
    (jtext "{'user':{'name':'Al','age':1,'tags':['x']}}") [SegKey (str "user")]
    (EditParser (jtext "{'age':2}"))
  = VObj [(str "name", VStr (str "Al")); (str "age", Example.int 2);
          (str "tags", VArr [VStr (str "x")])].
Proof. reflexivity. Qed.

(** ** The session as a whole *)

Section SessionFacts.
Context {R : Runtime}.
Implicit Types (w : World R).

(** The effect settles at once: a second render changes nothing, so the
    resets of lines 43-44 cannot loop. *)
Theorem render_idempotent w : render (render w) = render w.
Proof. apply render_stable. apply render_rendered. Qed.

(** Cancelling right after starting an edit gives back the world in which
    the edit was started, and starting an edit does not change the content
    that is shown. *)
Theorem handleCancel_undoes_handleEdit w :
  editing w = false -> editedText w = [] ->
  handleCancel (handleEdit w) = w /\
  content_shown (handleEdit w) = content_shown w.
Proof.
  destruct w as [j c h ns sel o e t d cs]. simpl. intros -> ->.
  split; reflexivity.
Qed.

(** The three ways in which a save ends. *)
Lemma handleSave_outcomes w :
  handleSave w = w \/
  (exists err, handleSave w = console_warn (str "Failed to apply edit to JSON") err w) \/
  (exists n newJson,
      handleSave w
      = setEditedText []
          (setEditing false
             (reselect (node_path n) (setFile newJson false (setJson newJson w))))).
Proof.
  unfold handleSave. destruct (selectedNode w) as [n|]; [|now left]. cbv zeta.
  destruct (DocumentPatcher (json w) (node_path n) (valueToWrite w n)) as [newJson|err].
  - right. right. now exists n, newJson.
  - right. left. now exists err.
Qed.

(** A save either leaves the document and its mirror as they are, or
    replaces both by the same text, marks the mirror clean and ends the
    edit; and it touches neither the [opened] property nor the record of
    the effect. *)
Theorem handleSave_writes_both_or_none w :
  ((json (handleSave w) = json w /\ contents (handleSave w) = contents w /\
    hasChanges (handleSave w) = hasChanges w /\ nodes (handleSave w) = nodes w /\
    selectedNode (handleSave w) = selectedNode w /\
    editing (handleSave w) = editing w /\ editedText (handleSave w) = editedText w)
   \/
   (contents (handleSave w) = json (handleSave w) /\
    hasChanges (handleSave w) = false /\
    nodes (handleSave w) = buildGraph (json (handleSave w)) /\
    editing (handleSave w) = false /\ editedText (handleSave w) = [] /\
    console (handleSave w) = console w)) /\
  opened (handleSave w) = opened w /\
  deps (handleSave w) = deps w.
Proof.
  destruct (handleSave_outcomes w) as [->|[(err & ->)|(n & newJson & ->)]].
  - split; [left|]; repeat split.
  - split; [left|]; repeat split.
  - unfold reselect. simpl.
    destruct (find (same_path (node_path n)) (buildGraph newJson)); simpl;
      (split; [right|]; repeat split).
Qed.

Lemma render_console w : console (render w) = console w.
Proof. unfold render. now destruct (same_deps (deps w) (effect_deps w)). Qed.

Lemma render_viewing w :
  (editing w = false -> editedText w = []) ->
  editing (render w) = false -> editedText (render w) = [].
Proof.
  unfold render. destruct (same_deps (deps w) (effect_deps w)); simpl; auto.
Qed.

(** In every world that the component reaches, the effect has seen the
    current dependencies, the edit buffer is empty whenever the session is
    viewing, and the console holds nothing but the warnings of failed
    saves. *)
Theorem reachable_invariant w :
  reachable w ->
  rendered w /\
  (editing w = false -> editedText w = []) /\
  (forall line, In line (console w) -> fst line = str "Failed to apply edit to JSON").
Proof.
  induction 1 as [j c dirty ns sel o|a w Hw (Hr & Hb & Hc)
                  |j c dirty ns sel o w Hw (Hr & Hb & Hc)].
  - unfold mount. split; [apply render_rendered|]. split.
    + apply render_viewing. reflexivity.
    + rewrite render_console. intros line [].
  - unfold act. destruct (offered w a) eqn:Ho; [|auto].
    split; [apply render_rendered|]. split.
    + apply render_viewing.
      destruct a; simpl in *.
      * discriminate.
      * destruct (handleSave_outcomes w) as [->|[(err & ->)|(n & newJson & ->)]].
        -- rewrite Ho. discriminate.
        -- simpl. rewrite Ho. discriminate.
        -- reflexivity.
      * reflexivity.
      * rewrite Ho. discriminate.
    + rewrite render_console. destruct a; simpl; try exact Hc.
      destruct (handleSave_outcomes w) as [->|[(err & ->)|(n & newJson & ->)]].
      * exact Hc.
      * simpl. intros line Hin. apply in_app_or in Hin as [Hin|[<-|[]]]; auto.
      * unfold reselect. simpl.
        destruct (find (same_path (node_path n)) (buildGraph newJson)); exact Hc.
  - unfold external. split; [apply render_rendered|]. split.
    + apply render_viewing. exact Hb.
    + rewrite render_console. exact Hc.
Qed.
End SessionFacts.

Lemma handleCancel_undoes_handleEdit_witness :
  handleCancel (handleEdit (mount (R := Example.runtime) (str "1") (str "1") false
                                  [Example.root_node] (Some Example.root_node) true))
  = mount (str "1") (str "1") false [Example.root_node] (Some Example.root_node) true /\
  content_shown (handleEdit (mount (R := Example.runtime) (str "1") (str "1") false
                                   [Example.root_node] (Some Example.root_node) true))
  = content_shown (mount (R := Example.runtime) (str "1") (str "1") false
                         [Example.root_node] (Some Example.root_node) true).
Proof.
  apply (handleCancel_undoes_handleEdit
           (mount (R := Example.runtime) (str "1") (str "1") false
                  [Example.root_node] (Some Example.root_node) true));
    reflexivity.
Defined.

(** A world reached by an edit, a keystroke, a failed save and a cancel. *)
Lemma reachable_invariant_witness :
  rendered (act ClickCancel (act ClickSave (act (TypeText (jtext "{'b':2}"))
    (act ClickEdit (mount (R := Example.runtime) (jtext "{'a':1}") (jtext "{'a':1}") false
                          [Example.root_node] (Some Example.root_node) true))))).
Proof.
  apply (reachable_invariant
           (act ClickCancel (act ClickSave (act (TypeText (jtext "{'b':2}"))
             (act ClickEdit (mount (R := Example.runtime) (jtext "{'a':1}") (jtext "{'a':1}")
                                   false [Example.root_node] (Some Example.root_node)
                                   true)))))).
  repeat apply reach_act. apply reach_mount.
Defined.

(** ** More on the merge and the traversal (lines 84-105) *)

Section MergeShape.
Context {V : Type}.
Implicit Types (ps acc : props V) (k : jstr) (v : V).

Lemma wf_keys_app_l (l1 l2 : list jstr) : wf_keys (l1 ++ l2) -> wf_keys l1.
Proof.
  induction l1 as [|k l1 IH]; simpl; intros H; [constructor|].
  inversion H as [|? ? Hall Hwf]; subst. constructor; [|auto].
  apply Forall_app in Hall. tauto.
Qed.

Lemma keys_app ps acc : keys (acc ++ ps) = keys acc ++ keys ps.
Proof. unfold keys. apply map_app. Qed.

Lemma lookup_In_wf ps k v : wf_props ps -> In (k, v) ps -> lookup k ps = Some v.
Proof.
  induction ps as [|[k' v'] r IH]; intros Hwf; [intros []|].
  rewrite (lookup_cons_wf k' v' r k Hwf). intros [[= -> ->]|Hin].
  - now rewrite jstr_eqb_refl.
  - destruct (jstr_eqb k' k) eqn:E.
    + apply jstr_eqb_eq in E. subst k'. exfalso.
      unfold wf_props in Hwf. simpl in Hwf. apply wf_keys_not_in in Hwf.
      apply Hwf. change k with (fst (k, v)). now apply in_map.
    + apply IH; [now apply wf_props_tail in Hwf|exact Hin].
Qed.

(** A key that is present keeps its place. *)
Lemma keys_define_own_present k v ps :
  wf_props ps -> In k (keys ps) -> keys (define_own k v ps) = keys ps.
Proof.
  unfold define_own. destruct (array_index k) as [i|] eqn:Ek.
  - induction ps as [|[k' v'] r IH]; intros Hwf; [intros []|]. simpl.
    destruct (jstr_eqb k' k) eqn:E.
    + apply jstr_eqb_eq in E. now subst.
    + apply jstr_eqb_neq in E. intros [Hk|Hin]; [contradiction|].
      inversion Hwf as [|? ? Hall Hr]; subst.
      rewrite Forall_forall in Hall. specialize (Hall k Hin).
      unfold key_before in Hall. simpl in Hall. rewrite Ek in Hall.
      destruct (array_index k') as [j|]; [|contradiction].
      apply N.ltb_lt in Hall. rewrite Hall. simpl. f_equal. now apply IH.
  - induction ps as [|[k' v'] r IH]; intros Hwf; [intros []|]. simpl.
    destruct (jstr_eqb k' k) eqn:E.
    + apply jstr_eqb_eq in E. now subst.
    + apply jstr_eqb_neq in E. intros [Hk|Hin]; [contradiction|].
      simpl. f_equal. apply IH; [now apply wf_props_tail in Hwf|exact Hin].
Qed.

(** Defining an entry that is there already changes nothing. *)
Lemma define_own_same k v ps :
  wf_props ps -> lookup k ps = Some v -> define_own k v ps = ps.
Proof.
  intros Hwf Hl.
  assert (Hin : In k (keys ps)).
  { destruct (in_dec (list_eq_dec N.eq_dec) k (keys ps)) as [H|H]; [exact H|].
    apply lookup_None in H. congruence. }
  unfold define_own. destruct (array_index k) as [i|] eqn:Ek.
  - revert Hwf Hl Hin. induction ps as [|[k' v'] r IH]; intros Hwf Hl; [intros []|].
    rewrite (lookup_cons_wf k' v' r k Hwf) in Hl. simpl.
    destruct (jstr_eqb k' k) eqn:E.
    + apply jstr_eqb_eq in E. congruence.
    + apply jstr_eqb_neq in E. intros [Hk|Hin]; [contradiction|].
      inversion Hwf as [|? ? Hall Hr]; subst.
      rewrite Forall_forall in Hall. specialize (Hall k Hin).
      unfold key_before in Hall. simpl in Hall. rewrite Ek in Hall.
      destruct (array_index k') as [j|]; [|contradiction].
      apply N.ltb_lt in Hall. rewrite Hall. f_equal. now apply IH.
  - revert Hwf Hl Hin. induction ps as [|[k' v'] r IH]; intros Hwf Hl; [intros []|].
    rewrite (lookup_cons_wf k' v' r k Hwf) in Hl. simpl.
    destruct (jstr_eqb k' k) eqn:E.
    + apply jstr_eqb_eq in E. congruence.
    + apply jstr_eqb_neq in E. intros [Hk|Hin]; [contradiction|].
      f_equal. apply IH; [now apply wf_props_tail in Hwf| |]; assumption.
Qed.

(** A key that comes after all the others is created last. *)
Lemma define_own_last k v acc :
  wf_keys (keys acc ++ [k]) -> define_own k v acc = acc ++ [(k, v)].
Proof.
  unfold define_own. destruct (array_index k) as [i|] eqn:Ek.
  - induction acc as [|[k' v'] r IH]; simpl; intros Hwf; [reflexivity|].
    inversion Hwf as [|? ? Hall Hr]; subst.
    apply Forall_app in Hall as [_ Hall]. inversion Hall as [|? ? Hb _]; subst.
    destruct (jstr_eqb k' k) eqn:E.
    { apply jstr_eqb_eq in E. subst. now apply key_before_irrefl in Hb. }
    unfold key_before in Hb. rewrite Ek in Hb.
    destruct (array_index k') as [j|]; [|contradiction].
    apply N.ltb_lt in Hb. rewrite Hb. f_equal. now apply IH.
  - induction acc as [|[k' v'] r IH]; simpl; intros Hwf; [reflexivity|].
    inversion Hwf as [|? ? Hall Hr]; subst.
    apply Forall_app in Hall as [_ Hall]. inversion Hall as [|? ? Hb _]; subst.
    destruct (jstr_eqb k' k) eqn:E.
    { apply jstr_eqb_eq in E. subst. now apply key_before_irrefl in Hb. }
    f_equal. now apply IH.
Qed.

(** Copying a well-formed object gives the same entries in the same
    order. *)
Lemma define_all_fresh ps acc : wf_props (acc ++ ps) -> define_all ps acc = acc ++ ps.
Proof.
  unfold define_all. revert acc.
  induction ps as [|[k v] ps IH]; intros acc Hwf; simpl.
  - now rewrite app_nil_r.
  - assert (Hk : wf_keys (keys acc ++ [k])).
    { unfold wf_props in Hwf. rewrite keys_app in Hwf. simpl in Hwf.
      change (k :: keys ps) with ([k] ++ keys ps) in Hwf.
      rewrite app_assoc in Hwf. now apply wf_keys_app_l in Hwf. }
    rewrite (define_own_last k v acc Hk), IH.
    + now rewrite <- app_assoc.
    + now rewrite <- app_assoc.
Qed.
End MergeShape.

Section MergeMore.
Context {R : Runtime}.



(** An edit that names only keys that the existing object has already
    (the rows shown are among its keys) keeps the keys of the object and
    their order; and an edit all of whose entries the object has already,
    the empty object among them, gives the object back as it is. *)
Theorem MergeResolver_keeps_shape
    (D : jstr) (P : JSONPath) (doc : val R) (ex c : props (val R)) :
  JSON_parse D = Some doc ->
  getAtPath doc P = Some (VObj ex) ->
  wf_props ex ->
  (forall k, In k (keys c) -> In k (keys ex)) ->
  (exists merged, MergeResolver D P (VObj c) = VObj merged /\ keys merged = keys ex) /\
  ((forall k v, In (k, v) c -> lookup k ex = Some v) ->
   MergeResolver D P (VObj c) = VObj ex).
Proof.
  intros HD HP Hwf Hkeys. unfold MergeResolver. rewrite HD, HP. simpl.
  unfold spread2. simpl.
  rewrite (define_all_fresh ex []) by exact Hwf. simpl.
  split.
  - eexists. split; [reflexivity|].
    unfold define_all. clear HD HP.
    assert (H : forall acc, wf_props acc -> keys acc = keys ex ->
                            keys (fold_left (fun a kv => define_own (fst kv) (snd kv) a) c acc)
                            = keys ex).
    { induction c as [|[k v] c IH]; intros acc Ha He; simpl; [exact He|].
      apply IH.
      - intros k' Hk'. apply Hkeys. now right.
      - now apply define_own_wf.
      - rewrite keys_define_own_present; [exact He|exact Ha|].
        rewrite He. apply Hkeys. now left. }
    now apply H.
  - intros Hsame. f_equal. unfold define_all. clear HD HP Hkeys.
    induction c as [|[k v] c IH]; simpl; [reflexivity|].
    rewrite define_own_same; [|exact Hwf|apply Hsame; now left].
    apply IH. intros k' v' Hin. apply Hsame. now right.
Qed.
End MergeMore.

(** The edit [{"b":2,"a":1}] of the object [{"a":1,"b":2}] keeps the order
    [a], [b] of its keys and changes nothing. *)
Lemma MergeResolver_keeps_shape_witness :
  (exists merged,
      MergeResolver (R := Example.runtime) (jtext "{'p': {'a':1, 'b':2}}") [SegKey (str "p")]
        (VObj [(str "b", Example.int 2); (str "a", Example.int 1)]) = VObj merged /\
      keys merged = [str "a"; str "b"]) /\
  MergeResolver (R := Example.runtime) (jtext "{'p': {'a':1, 'b':2}}") [SegKey (str "p")]
    (VObj [(str "b", Example.int 2); (str "a", Example.int 1)])
  = Example.obj_ab.
Proof.
  destruct (MergeResolver_keeps_shape (R := Example.runtime)
              (jtext "{'p': {'a':1, 'b':2}}") [SegKey (str "p")]
              (VObj [(str "p", Example.obj_ab)])
              [(str "a", Example.int 1); (str "b", Example.int 2)]
              [(str "b", Example.int 2); (str "a", Example.int 1)]
              eq_refl eq_refl) as [H1 H2].
  - repeat constructor. intros H. discriminate H.
  - simpl. tauto.
  - split; [exact H1|]. apply H2.
    intros k v [[= <- <-]|[[= <- <-]|[]]]; reflexivity.
Defined.

(** ** The displayed path (lines 27-31) *)

Lemma jsonPathToString_concat (p : JSONPath) :
  jsonPathToString (Some p)
  = str "$" ++ List.concat (map (fun x => str "[" ++ path_segment_text x ++ str "]") p).
Proof.
  destruct p as [|seg segs]; [reflexivity|].
  unfold jsonPathToString.
  change (str "$[") with (str "$" ++ str "["). rewrite <- app_assoc. f_equal.
  revert seg. induction segs as [|b segs IH]; intros seg.
  - simpl. now rewrite app_nil_r.
  - change (map path_segment_text (seg :: b :: segs))
      with (path_segment_text seg :: path_segment_text b :: map path_segment_text segs).
    rewrite join_cons2.
    change (List.concat (map (fun x => str "[" ++ path_segment_text x ++ str "]")
                             (seg :: b :: segs)))
      with ((str "[" ++ path_segment_text seg ++ str "]")
              ++ List.concat (map (fun x => str "[" ++ path_segment_text x ++ str "]")
                                  (b :: segs))).
    rewrite <- (IH b). change (str "][") with (str "]" ++ str "[").
    cbn [map]. rewrite <- !app_assoc. reflexivity.
Qed.

Lemma path_segment_text_inj (a b : segment) (t1 t2 : jstr) :
  (forall s, a = SegKey s -> ~ In QUOTE s) ->
  (forall s, b = SegKey s -> ~ In QUOTE s) ->
  path_segment_text a ++ 93 :: t1 = path_segment_text b ++ 93 :: t2 ->
  a = b /\ t1 = t2.
Proof.
  intros Ha Hb. destruct a as [s1|z1], b as [s2|z2]; simpl; intros H.
  - injection H as H. rewrite <- !app_assoc in H. simpl in H.
    apply (span_unique not_quote) in H as [-> [= ->]]; try reflexivity; [auto| |].
    + apply Forall_forall. intros c Hc. unfold not_quote.
      destruct (N.eqb_spec c QUOTE); [|reflexivity].
      subst. exfalso. now apply (Ha s1 eq_refl).
    + apply Forall_forall. intros c Hc. unfold not_quote.
      destruct (N.eqb_spec c QUOTE); [|reflexivity].
      subst. exfalso. now apply (Hb s2 eq_refl).
  - exfalso. pose proof (Z_to_jstr_chars z2) as Hc. pose proof (Z_to_jstr_nonempty z2) as Hn.
    destruct (Z_to_jstr z2) as [|h t]; [contradiction|].
    inversion Hc as [|? ? Hh _]; subst. injection H as <- _. discriminate.
  - exfalso. pose proof (Z_to_jstr_chars z1) as Hc. pose proof (Z_to_jstr_nonempty z1) as Hn.
    destruct (Z_to_jstr z1) as [|h t]; [contradiction|].
    inversion Hc as [|? ? Hh _]; subst. injection H as -> _. discriminate.
  - apply (span_unique is_int_char) in H as [H [= ->]];
      try apply Z_to_jstr_chars; try reflexivity.
    apply Z_to_jstr_inj in H. subst. auto.
Qed.

(** The displayed path tells the path when no key contains a double quote
    (the keys are put in quotes as they are, without escapes). *)
Theorem jsonPathToString_inj (p q : JSONPath) :
  quote_free p -> quote_free q ->
  jsonPathToString (Some p) = jsonPathToString (Some q) -> p = q.
Proof.
  rewrite !jsonPathToString_concat. intros Hp Hq [= H].
  revert q Hq H. induction p as [|a p IH]; intros [|b q] Hq H.
  - reflexivity.
  - discriminate H.
  - discriminate H.
  - cbn [map List.concat] in H. injection H as H. rewrite <- !app_assoc in H.
    apply path_segment_text_inj in H as [-> H].
    + f_equal. apply IH.
      * intros s Hs. apply Hp. now right.
      * intros s Hs. apply Hq. now right.
      * exact H.
    + intros s ->. apply Hp. now left.
    + intros s ->. apply Hq. now left.
Qed.

(** With a double quote in a key two paths can be displayed alike. *)
Lemma jsonPathToString_collision :
  jsonPathToString (Some [SegKey (jtext "a'][0]['b")])
  = jsonPathToString (Some [SegKey (str "a"); SegIdx 0; SegKey (str "b")]).
Proof. reflexivity. Qed.

Lemma jsonPathToString_inj_witness :
  [SegKey (str "a"); SegIdx 0] = [SegKey (str "a"); SegIdx 0].
Proof.
  apply (jsonPathToString_inj [SegKey (str "a"); SegIdx 0] [SegKey (str "a"); SegIdx 0]).
  - intros s [[= <-]|[H|[]]]; [|discriminate H].
    intros [H|[]]. discriminate H.
  - intros s [[= <-]|[H|[]]]; [|discriminate H].
    intros [H|[]]. discriminate H.
  - reflexivity.
Defined.

(** ** Decimal literals in the edit parser (lines 60-76) *)

Section DecimalFacts.
Context {R : Runtime}.

Lemma option_map_app_nil {A : Type} (x : option (list A)) : option_map (app []) x = x.
Proof. now destruct x. Qed.

(** A run of number characters is read as one token. *)
Lemma lex_LNum_run (ds acc : jstr) :
  Forall (fun c => is_num_char c = true) ds ->
  lex (LNum acc) ds = lex_finish (LNum (rev ds ++ acc)).
Proof.
  intros H. revert acc. induction H as [|c ds Hc _ IH]; intros acc; [reflexivity|].
  cbn [lex lex_step]. rewrite Hc, option_map_app_nil, IH.
  cbn [rev]. now rewrite <- app_assoc.
Qed.

Lemma lex_start_num (c : N) :
  is_int_char c = true -> lex_start c = Some ([], LNum [c]).
Proof.
  unfold is_int_char, lex_start, is_json_ws, is_digit, QUOTE. intros H.
  assert (Hc : (48 <= c <= 57) \/ c = 45).
  { apply orb_true_iff in H as [H|H].
    - apply andb_true_iff in H as [H1 H2]. apply N.leb_le in H1, H2. lia.
    - apply N.eqb_eq in H. now right. }
  repeat match goal with
         | |- context [N.eqb ?x ?y] => destruct (N.eqb_spec x y); [lia|]
         end.
  simpl. unfold is_int_char, is_digit in H.
  destruct ((48 <=? c) && (c <=? 57)) eqn:Ed; simpl; [reflexivity|].
  simpl in H. apply N.eqb_eq in H. subst c. reflexivity.
Qed.

Lemma is_int_char_num (c : N) : is_int_char c = true -> is_num_char c = true.
Proof.
  unfold is_int_char, is_num_char. intros H. apply orb_true_iff in H as [->|H].
  - reflexivity.
  - rewrite H. now rewrite !orb_true_r.
Qed.

(** A text of sign, digits and point is parsed as the number that it
    writes, or rejected. *)
Lemma JSON_parse_number_chars (c : N) (s : jstr) :
  is_int_char c = true ->
  Forall (fun x => is_num_char x = true) s ->
  JSON_parse (c :: s)
  = if is_json_number (c :: s) then Some (VNum (StringToNumber (c :: s))) else None.
Proof.
  intros Hc Hs. unfold JSON_parse. cbn [lex lex_step].
  rewrite (lex_start_num c Hc), option_map_app_nil, (lex_LNum_run s [c] Hs).
  cbn [lex_finish]. unfold number_token.
  rewrite rev_app_distr, rev_involutive. cbn [rev app].
  now destruct (is_json_number (c :: s)).
Qed.

Lemma is_digit_int_char (c : N) : is_digit c = true -> is_int_char c = true.
Proof. unfold is_int_char. now intros ->. Qed.

Lemma is_num_char_not_ws (c : N) : is_num_char c = true -> is_js_ws c = false.
Proof.
  unfold is_num_char, is_digit, is_js_ws. intros H.
  assert (Hc : (48 <= c <= 57) \/ c = 43 \/ c = 45 \/ c = 46 \/ c = 101 \/ c = 69).
  { repeat (apply orb_true_iff in H as [H|H]);
      try (apply N.eqb_eq in H; lia).
    apply andb_true_iff in H as [H1 H2]. apply N.leb_le in H1, H2. lia. }
  repeat match goal with
         | |- context [N.eqb ?x ?y] => destruct (N.eqb_spec x y); [lia|]
         | |- context [N.leb ?x ?y] => destruct (N.leb_spec x y)
         end; simpl; try reflexivity; lia.
Qed.

(** [trim] leaves alone a text that neither starts nor ends with white
    space. *)
Lemma trim_clean (s : jstr) (c d : N) (r u : jstr) :
  s = c :: r -> rev s = d :: u -> is_js_ws c = false -> is_js_ws d = false ->
  trim s = s.
Proof.
  intros Hs Hr Hc Hd. unfold trim.
  assert (H1 : trim_start s = s) by (rewrite Hs; simpl; now rewrite Hc).
  rewrite H1.
  assert (H2 : trim_start (rev s) = rev s) by (rewrite Hr; simpl; now rewrite Hd).
  rewrite H2. apply rev_involutive.
Qed.

(** The characters of a decimal literal. *)
Lemma decimal_literal_chars (s : jstr) :
  decimal_literal s ->
  exists c r d u,
    s = c :: r /\ rev s = d :: u /\
    is_int_char c = true /\ is_num_char d = true /\
    Forall (fun x => is_num_char x = true) r.
Proof.
  intros (sign & int & frac & -> & Hsign & [Hne Hint] & Hfrac).
  assert (Hall : Forall (fun x => is_num_char x = true) (sign ++ int ++ frac)).
  { apply Forall_app. split; [destruct Hsign as [->| ->]; repeat constructor|].
    apply Forall_app. split.
    - eapply Forall_impl; [|exact Hint]. intros a Ha.
      now apply is_int_char_num, is_digit_int_char.
    - destruct Hfrac as [->|(f & -> & _ & Hf)]; [constructor|].
      constructor; [reflexivity|].
      eapply Forall_impl; [|exact Hf]. intros a Ha.
      now apply is_int_char_num, is_digit_int_char. }
  assert (Hlast : exists d u, rev (sign ++ int ++ frac) = d :: u /\ is_num_char d = true).
  { assert (Hne' : sign ++ int ++ frac <> []).
    { destruct int; [contradiction|]. destruct sign; discriminate. }
    destruct (exists_last Hne') as (l & d & E). rewrite E, rev_app_distr. simpl.
    exists d, (rev l). split; [reflexivity|].
    rewrite E in Hall. apply Forall_app in Hall as [_ Hall]. now inversion Hall. }
  destruct Hlast as (d & u & Hrev & Hd).
  destruct int as [|i int]; [contradiction|]. inversion Hint as [|? ? Hi _]; subst.
  destruct Hsign as [->| ->]; simpl in *.
  - exists i, (int ++ frac), d, u. repeat split; auto.
    + now apply is_digit_int_char.
    + now inversion Hall.
  - exists 45, (i :: int ++ frac), d, u. repeat split; auto.
    now inversion Hall.
Qed.

(** On a decimal literal the two routes of the edit parser agree: the
    result is the number that [Number] reads, whether [JSON.parse] takes
    the text (42) or not (007).  So a lone unkeyed row with a string value
    that reads as a decimal literal comes back from the edit buffer as a
    number. *)
Theorem EditParser_decimal_literal (s : jstr) :
  decimal_literal s ->
  EditParser s = VNum (StringToNumber s) /\
  (forall row : NodeRow number,
      truthy_key (key row) = false -> value_ row = SStr s ->
      EditParser (normalizeNodeData (Some [row])) = VNum (StringToNumber s)).
Proof.
  intros Hd.
  assert (He : EditParser s = VNum (StringToNumber s)).
  { destruct (decimal_literal_chars s Hd) as (c & r & d & u & Hs & Hr & Hc & Hdn & Hall).
    unfold EditParser. rewrite Hs at 1. rewrite (JSON_parse_number_chars c r Hc Hall).
    rewrite <- Hs. destruct (is_json_number s); [reflexivity|].
    rewrite (trim_clean s c d r u Hs Hr).
    - apply number_regex_decimal_literal in Hd. now rewrite Hd.
    - now apply is_num_char_not_ws, is_int_char_num.
    - now apply is_num_char_not_ws. }
  split; [exact He|].
  intros row Hk Hv. unfold normalizeNodeData. rewrite Hk, Hv. simpl. exact He.
Qed.
End DecimalFacts.

Lemma EditParser_decimal_literal_witness :
  EditParser (R := Example.runtime) (str "007") = Example.int 7 /\
  (forall row : NodeRow (@number Example.runtime),
      truthy_key (key row) = false -> value_ row = SStr (str "007") ->
      EditParser (normalizeNodeData (Some [row])) = Example.int 7).
Proof.
  apply (EditParser_decimal_literal (R := Example.runtime) (str "007")).
  apply number_regex_decimal_literal. reflexivity.
Defined.

(** ** The edit buffer read back

    Lines 13-24 and 60-62: what [normalizeNodeData] prints, [JSON.parse]
    reads. *)

Section RoundTrip.
Context {R : Runtime}.

Lemma lex_cons (m : lmode) (c : N) (r : jstr) :
  lex m (c :: r)
  = match lex_step m c with
    | Some (ts, m') => option_map (app ts) (lex m' r)
    | None => None
    end.
Proof. reflexivity. Qed.

Lemma hex_value_hex_digit (d : N) : d < 16 -> hex_value (hex_digit d) = Some d.
Proof.
  intros H. unfold hex_value, hex_digit, is_digit.
  destruct (N.ltb_spec d 10).
  - replace ((48 <=? 48 + d) && (48 + d <=? 57)) with true.
    + f_equal. lia.
    + symmetry. apply andb_true_iff. split; apply N.leb_le; lia.
  - replace ((48 <=? 87 + d) && (87 + d <=? 57)) with false.
    + replace ((97 <=? 87 + d) && (87 + d <=? 102)) with true.
      * f_equal. lia.
      * symmetry. apply andb_true_iff. split; apply N.leb_le; lia.
    + symmetry. apply andb_false_iff. right. apply N.leb_gt. lia.
Qed.

Lemma nibbles (c : N) :
  c < 65536 ->
  16 * (16 * (16 * (16 * 0 + c / 4096) + (c / 256) mod 16) + (c / 16) mod 16) + c mod 16 = c.
Proof.
  intros H.
  pose proof (N.div_mod c 16 ltac:(lia)) as H0.
  pose proof (N.div_mod (c / 16) 16 ltac:(lia)) as H1.
  pose proof (N.div_mod (c / 16 / 16) 16 ltac:(lia)) as H2.
  rewrite !N.Div0.div_div in H1, H2. change (16 * 16) with 256 in *.
  rewrite N.Div0.div_div in H2. change (256 * 16) with 4096 in *.
  assert (H3 : (c / 4096) < 16) by (apply N.Div0.div_lt_upper_bound; lia).
  lia.
Qed.

Lemma lex_unicode_escape (c : N) (acc X : jstr) :
  c < 65536 ->
  lex (LStr acc) (unicode_escape c ++ X) = lex (LStr (c :: acc)) X.
Proof.
  intros H. unfold unicode_escape. cbn [app].
  rewrite lex_cons. cbn [lex_step]. 
  change (BACKSLASH =? QUOTE) with false. change (BACKSLASH =? BACKSLASH) with true.
  cbv iota. rewrite option_map_app_nil.
  rewrite lex_cons. cbn [lex_step]. change (117 =? 117) with true. cbv iota.
  rewrite option_map_app_nil.
  rewrite lex_cons. cbn [lex_step].
  rewrite hex_value_hex_digit by (apply N.Div0.div_lt_upper_bound; lia).
  rewrite option_map_app_nil.
  rewrite lex_cons. cbn [lex_step].
  rewrite hex_value_hex_digit by (apply N.mod_lt; lia).
  rewrite option_map_app_nil.
  rewrite lex_cons. cbn [lex_step].
  rewrite hex_value_hex_digit by (apply N.mod_lt; lia).
  rewrite option_map_app_nil.
  rewrite lex_cons. cbn [lex_step].
  rewrite hex_value_hex_digit by (apply N.mod_lt; lia).
  rewrite option_map_app_nil.
  now rewrite nibbles.
Qed.

Lemma lex_escape_short (c e : N) : short_escape c = Some e -> lex_escape e = Some c.
Proof.
  unfold short_escape, QUOTE, BACKSLASH.
  repeat match goal with
         | |- context [N.eqb ?x ?y] => destruct (N.eqb_spec x y); [subst|]
         end; intros [= <-]; reflexivity.
Qed.

Lemma lex_quote_unit (p : bool) (c : N) (acc X : jstr) :
  lex (LStr acc) (quote_unit p c ++ X) = lex (LStr (c :: acc)) X.
Proof.
  unfold quote_unit. destruct (short_escape c) as [e|] eqn:E.
  - cbn [app]. rewrite lex_cons. cbn [lex_step].
    change (BACKSLASH =? QUOTE) with false. change (BACKSLASH =? BACKSLASH) with true.
    cbv iota. rewrite option_map_app_nil.
    rewrite lex_cons. cbn [lex_step].
    pose proof (short_escape_not_u c e E) as Hu. apply N.eqb_neq in Hu. rewrite Hu.
    rewrite (lex_escape_short c e E). now rewrite option_map_app_nil.
  - destruct (N.ltb_spec c 32) as [Hlt|Hge].
    { apply lex_unicode_escape. lia. }
    destruct ((is_high c || is_low c) && negb p) eqn:Es.
    + apply lex_unicode_escape. apply andb_true_iff in Es as [Es _].
      unfold is_high, is_low in Es.
      apply orb_true_iff in Es as [Es|Es]; apply andb_true_iff in Es as [_ Es];
        apply N.leb_le in Es; lia.
    + apply short_escape_None in E as [Hq Hb].
      cbn [app]. rewrite lex_cons. cbn [lex_step].
      apply N.eqb_neq in Hq, Hb. rewrite Hq, Hb.
      apply N.ltb_ge in Hge. rewrite Hge. now rewrite option_map_app_nil.
Qed.

Lemma lex_quote_body (s : jstr) : forall (f : bool) (acc rest : jstr),
  lex (LStr acc) (quote_body f s ++ QUOTE :: rest)
  = option_map (cons (TString (rev acc ++ s))) (lex LDefault rest).
Proof.
  induction s as [|c s IH]; intros f acc rest.
  - cbn [quote_body app]. rewrite lex_cons. cbn [lex_step].
    change (QUOTE =? QUOTE) with true. cbv iota. rewrite app_nil_r.
    now destruct (lex LDefault rest).
  - cbn [quote_body]. rewrite <- app_assoc, lex_quote_unit, IH.
    cbn [rev]. now rewrite <- app_assoc.
Qed.

(** A quoted string is read back as the string. *)
Lemma lex_quote (s rest : jstr) :
  lex LDefault (quote s ++ rest) = option_map (cons (TString s)) (lex LDefault rest).
Proof.
  unfold quote. cbn [app]. rewrite lex_cons.
  change (lex_step LDefault QUOTE) with (Some (@nil token, LStr [])).
  cbv iota. rewrite option_map_app_nil, <- app_assoc. cbn [app].
  apply (lex_quote_body s false [] rest).
Qed.

Ltac lex_one :=
  rewrite lex_cons;
  match goal with
  | |- context [lex_step ?m ?c] =>
    let x := eval vm_compute in (lex_step m c) in
    change (lex_step m c) with x
  end; cbv iota beta.

Lemma lex_delim (c : N) (rest : jstr) :
  is_delim c ->
  exists t, lex_start c = Some (t, LDefault) /\ is_num_char c = false /\ is_lower c = false.
Proof.
  intros [-> | ->]; eexists; repeat split.
Qed.

Lemma option_map_app {A : Type} (a b : list A) (x : option (list A)) :
  option_map (app a) (option_map (app b) x) = option_map (app (a ++ b)) x.
Proof. destruct x; simpl; [now rewrite app_assoc|reflexivity]. Qed.

Lemma lex_word (w : jstr) (c : N) (rest : jstr) :
  w = str "null" \/ w = str "true" \/ w = str "false" ->
  is_delim c ->
  lex LDefault (w ++ c :: rest) = option_map (app [TWord w]) (lex LDefault (c :: rest)).
Proof.
  intros Hw Hc. rewrite (lex_cons LDefault c rest).
  destruct (lex_delim c rest Hc) as (t & Ht & _ & Hl).
  change (lex_step LDefault c) with (lex_start c). rewrite Ht.
  rewrite option_map_app.
  destruct Hw as [->|[->| ->]].
  - change (str "null" ++ c :: rest) with (110 :: 117 :: 108 :: 108 :: c :: rest).
    do 4 lex_one. rewrite lex_cons. cbn [lex_step]. rewrite Hl.
    unfold emit_then_start. rewrite Ht. rewrite ?option_map_app_nil. reflexivity.
  - change (str "true" ++ c :: rest) with (116 :: 114 :: 117 :: 101 :: c :: rest).
    do 4 lex_one. rewrite lex_cons. cbn [lex_step]. rewrite Hl.
    unfold emit_then_start. rewrite Ht. rewrite ?option_map_app_nil. reflexivity.
  - change (str "false" ++ c :: rest) with (102 :: 97 :: 108 :: 115 :: 101 :: c :: rest).
    do 5 lex_one. rewrite lex_cons. cbn [lex_step]. rewrite Hl.
    unfold emit_then_start. rewrite Ht. rewrite ?option_map_app_nil. reflexivity.
Qed.

Lemma lex_LNum_until (ds : jstr) (c : N) (rest acc : jstr) :
  Forall (fun x => is_num_char x = true) ds -> is_delim c ->
  lex (LNum acc) (ds ++ c :: rest)
  = match number_token (rev ds ++ acc) with
    | Some t => option_map (app [t]) (lex LDefault (c :: rest))
    | None => None
    end.
Proof.
  intros H Hc. revert acc. induction H as [|x ds Hx _ IH]; intros acc.
  - cbn [app rev]. rewrite !lex_cons. cbn [lex_step].
    destruct (lex_delim c rest Hc) as (t & Ht & Hn & _). rewrite Hn.
    destruct (number_token acc); [|reflexivity].
    unfold emit_then_start. rewrite Ht. cbv iota beta.
    now destruct (lex LDefault rest).
  - cbn [app]. rewrite lex_cons. cbn [lex_step]. rewrite Hx, option_map_app_nil, IH.
    cbn [rev]. now rewrite <- app_assoc.
Qed.

(** The characters of a number token. *)
Lemma digits1_chars (s r : jstr) :
  digits1 s = Some r ->
  exists p, s = p ++ r /\ Forall (fun x => is_num_char x = true) p /\
            exists c p', p = c :: p' /\ is_digit c = true.
Proof.
  intros H. apply digits1_split in H as (ds & [Hne Hall] & -> & _).
  exists ds. repeat split.
  - eapply Forall_impl; [|exact Hall]. intros a Ha.
    now apply is_int_char_num, is_digit_int_char.
  - destruct ds as [|c p']; [contradiction|]. inversion Hall; subst. eauto.
Qed.

Lemma int_part_chars (s r : jstr) :
  int_part s = Some r ->
  exists p, s = p ++ r /\ Forall (fun x => is_num_char x = true) p /\
            exists c p', p = c :: p' /\ is_digit c = true.
Proof.
  unfold int_part. destruct s as [|c s']; [discriminate|].
  destruct (N.eqb_spec c 48) as [->|Hc].
  - intros [= <-]. exists [48]. repeat split; [repeat constructor|].
    exists 48, []. split; reflexivity.
  - apply digits1_chars.
Qed.

Lemma frac_part_chars (s r : jstr) :
  frac_part s = Some r ->
  exists p, s = p ++ r /\ Forall (fun x => is_num_char x = true) p.
Proof.
  unfold frac_part. destruct s as [|c s']; [intros [= <-]; exists []; split; [reflexivity|constructor]|].
  destruct (N.eqb_spec c 46) as [->|Hc].
  - intros H. apply digits1_chars in H as (p & -> & Hp & _).
    exists (46 :: p). split; [reflexivity|]. constructor; [reflexivity|exact Hp].
  - intros [= <-]. exists []. split; [reflexivity|constructor].
Qed.

Lemma exp_part_chars (s r : jstr) :
  exp_part s = Some r ->
  exists p, s = p ++ r /\ Forall (fun x => is_num_char x = true) p.
Proof.
  unfold exp_part. destruct s as [|c s']; [intros [= <-]; exists []; split; [reflexivity|constructor]|].
  destruct ((c =? 101) || (c =? 69)) eqn:Ec.
  - assert (Hcn : is_num_char c = true).
    { unfold is_num_char. apply orb_true_iff in Ec as [Ec|Ec]; rewrite Ec;
        now rewrite ?orb_true_r. }
    destruct s' as [|d s'']; [discriminate|].
    destruct ((d =? 43) || (d =? 45)) eqn:Ed.
    + assert (Hdn : is_num_char d = true).
      { unfold is_num_char. apply orb_true_iff in Ed as [Ed|Ed]; rewrite Ed;
          now rewrite ?orb_true_r. }
      intros H. apply digits1_chars in H as (p & -> & Hp & _).
      exists (c :: d :: p). split; [reflexivity|]. repeat constructor; assumption.
    + intros H. apply digits1_chars in H as (p & Hp1 & Hp & _).
      exists (c :: p). split; [simpl; now rewrite Hp1|]. constructor; assumption.
  - intros [= <-]. exists []. split; [reflexivity|constructor].
Qed.

Lemma json_number_chars (s : jstr) :
  is_json_number s = true ->
  exists c r, s = c :: r /\ is_int_char c = true /\
              Forall (fun x => is_num_char x = true) r.
Proof.
  unfold is_json_number.
  destruct (int_part (opt_minus s)) as [s1|] eqn:E1; [|discriminate].
  destruct (frac_part s1) as [s2|] eqn:E2; [|discriminate].
  destruct (exp_part s2) as [[|]|] eqn:E3; try discriminate. intros _.
  apply int_part_chars in E1 as (p1 & H1 & Hp1 & c1 & p1' & -> & Hc1).
  apply frac_part_chars in E2 as (p2 & -> & Hp2).
  apply exp_part_chars in E3 as (p3 & -> & Hp3).
  rewrite app_nil_r in H1.
  assert (Hrest : Forall (fun x => is_num_char x = true) ((c1 :: p1') ++ p2 ++ p3)).
  { apply Forall_app. split; [exact Hp1|]. apply Forall_app. now split. }
  destruct s as [|c s']; [discriminate|]. simpl in H1.
  destruct (N.eqb_spec c 45) as [->|Hc].
  - exists 45, s'. repeat split. now rewrite H1.
  - rewrite H1. exists c1, (p1' ++ p2 ++ p3). repeat split.
    + now apply is_digit_int_char.
    + now inversion Hrest.
Qed.

Lemma lex_number (nt : jstr) (c : N) (rest : jstr) :
  is_json_number nt = true -> is_delim c ->
  lex LDefault (nt ++ c :: rest) = option_map (app [TNumber nt]) (lex LDefault (c :: rest)).
Proof.
  intros Hn Hc. destruct (json_number_chars nt Hn) as (c0 & r & -> & Hc0 & Hr).
  cbn [app]. rewrite lex_cons.
  change (lex_step LDefault c0) with (lex_start c0). rewrite (lex_start_num c0 Hc0).
  rewrite option_map_app_nil, (lex_LNum_until r c rest [c0] Hr Hc).
  unfold number_token. rewrite rev_app_distr, rev_involutive. cbn [rev app].
  now rewrite Hn.
Qed.

Lemma lex_value (v : scalar number) (c : N) (rest : jstr) :
  is_printed ([], v) = true ->
  (forall n, v = SNum n -> isFinite n = true -> number_round_trips n) ->
  is_delim c ->
  lex LDefault (value_text v ++ c :: rest)
  = option_map (app [value_token v]) (lex LDefault (c :: rest)).
Proof.
  intros Hp Hn Hc.
  destruct v as [| |b|n|s]; cbv [value_text value_token JSON_stringify_scalar].
  - discriminate.
  - apply lex_word; auto.
  - destruct b; apply lex_word; auto.
  - destruct (isFinite n) eqn:Hf.
    + apply lex_number; [|exact Hc]. now apply (Hn n eq_refl Hf).
    + apply lex_word; auto.
  - rewrite lex_quote. now destruct (lex LDefault (c :: rest)).
Qed.

Lemma lex_member (kv : jstr * scalar number) (c : N) (rest : jstr) :
  is_printed kv = true ->
  (forall n, snd kv = SNum n -> isFinite n = true -> number_round_trips n) ->
  is_delim c ->
  lex LDefault (member_text kv ++ c :: rest)
  = option_map (app (member_tokens kv)) (lex LDefault (c :: rest)).
Proof.
  intros Hp Hn Hc. destruct kv as [k v]. unfold member_text, member_tokens. simpl fst. simpl snd.
  rewrite <- !app_assoc, lex_quote.
  change (str ": " ++ value_text v ++ c :: rest) with (58 :: 32 :: value_text v ++ c :: rest).
  do 2 lex_one. rewrite option_map_app_nil.
  rewrite (lex_value v c rest); [|exact Hp|exact Hn|exact Hc].
  now destruct (lex LDefault (c :: rest)).
Qed.

Lemma more_text_cons (e : jstr * scalar number) (es : props (scalar number)) :
  more_text (e :: es) = separator ++ member_text e ++ more_text es.
Proof. unfold more_text. simpl. now rewrite <- !app_assoc. Qed.

Lemma more_text_head (es : props (scalar number)) :
  exists c rest, more_text es = c :: rest /\ is_delim c.
Proof.
  unfold more_text. destruct es as [|e es]; simpl.
  - exists 10, (str "}"). split; [reflexivity|now right].
  - eexists 44, _. split; [reflexivity|now left].
Qed.

Lemma lex_more (es : props (scalar number)) :
  forallb is_printed es = true ->
  numbers_round_trip es ->
  lex LDefault (more_text es) = Some (more_tokens es).
Proof.
  induction es as [|e es IH]; intros Hp Hn.
  - reflexivity.
  - simpl in Hp. apply andb_true_iff in Hp as [Hp Hps].
    assert (Hn' : numbers_round_trip es).
    { intros k n Hin. apply (Hn k n). now right. }
    specialize (IH Hps Hn').
    rewrite more_text_cons.
    change (separator ++ member_text e ++ more_text es)
      with (44 :: 10 :: 32 :: 32 :: member_text e ++ more_text es).
    do 4 lex_one. rewrite !option_map_app_nil.
    destruct (more_text_head es) as (c & rest & E & Hc). rewrite E.
    rewrite lex_member; [|exact Hp| |exact Hc].
    + rewrite <- E, IH. unfold more_tokens. simpl. reflexivity.
    + intros n Hv. apply (Hn (fst e) n). left. destruct e. simpl in *. now subst.
Qed.

Lemma wf_props_filter {V : Type} (f : jstr * V -> bool) (ps : props V) :
  wf_props ps -> wf_props (filter f ps).
Proof.
  unfold wf_props. induction ps as [|kv ps IH]; simpl; intros H; [constructor|].
  inversion H as [|? ? Hall Hwf]; subst.
  destruct (f kv); simpl; [|auto].
  constructor; [|auto].
  rewrite Forall_forall in *. intros k Hin. apply Hall.
  unfold keys in *. apply in_map_iff in Hin as (e & <- & He).
  apply filter_In in He as [He _]. now apply in_map.
Qed.

Lemma keys_printed_entries (ps : props (scalar number)) :
  keys (printed_entries ps) = keys (filter is_printed ps).
Proof. unfold printed_entries, keys. rewrite map_map. reflexivity. Qed.

Lemma members_printed (ps : props (scalar number)) :
  members ps = map member_text (filter is_printed ps).
Proof.
  induction ps as [|[k v] ps IH]; [reflexivity|].
  destruct v; simpl; rewrite IH; reflexivity.
Qed.

Lemma join_more (e : jstr * scalar number) (es : props (scalar number)) :
  join separator (map member_text (e :: es)) ++ [LF] ++ str "}"
  = member_text e ++ more_text es.
Proof.
  revert e. induction es as [|e' es IH]; intros e; [reflexivity|].
  rewrite more_text_cons, <- IH.
  change (join separator (map member_text (e :: e' :: es)))
    with (member_text e ++ separator ++ join separator (map member_text (e' :: es))).
  now rewrite <- !app_assoc.
Qed.

(** The text of [JSON.stringify(obj, null, 2)], member by member. *)
Lemma JSON_stringify_object2_shape (ps : props (scalar number)) :
  JSON_stringify_object2 ps
  = match filter is_printed ps with
    | [] => str "{}"
    | e :: es => 123 :: 10 :: 32 :: 32 :: member_text e ++ more_text es
    end.
Proof.
  unfold JSON_stringify_object2. rewrite members_printed.
  destruct (filter is_printed ps) as [|e es]; [reflexivity|].
  rewrite <- join_more. reflexivity.
Qed.

Lemma parse_member (ps : props (val R)) (stk : list frame) (e : jstr * scalar number)
      (rest : list token) :
  is_printed e = true ->
  (forall n, snd e = SNum n -> isFinite n = true -> number_round_trips n) ->
  parse_tokens (PKey ps stk) (member_tokens e ++ rest)
  = parse_tokens (PObjNext (define_own (fst e) (printed_val (snd e)) ps) stk) rest.
Proof.
  intros Hp Hn. destruct e as [k v]. unfold is_printed in Hp. simpl in *.
  destruct v as [| |b|n|s]; try discriminate; try reflexivity.
  - destruct b; reflexivity.
  - unfold value_token, printed_val. destruct (isFinite n) eqn:Hf; [|reflexivity].
    simpl. destruct (Hn n eq_refl Hf) as [_ ->]. reflexivity.
Qed.

Lemma parse_more (es : props (scalar number)) (ps : props (val R)) (stk : list frame) :
  forallb is_printed es = true ->
  numbers_round_trip es ->
  parse_tokens (PObjNext ps stk) (more_tokens es)
  = Some (reduce (VObj (define_all (map (fun kv => (fst kv, printed_val (snd kv))) es) ps))
                 stk).
Proof.
  revert ps. induction es as [|e es IH]; intros ps Hp Hn; [reflexivity|].
  simpl in Hp. apply andb_true_iff in Hp as [Hp Hps].
  assert (Hn' : numbers_round_trip es).
  { intros k n Hin. apply (Hn k n). now right. }
  change (more_tokens (e :: es)) with (TComma :: member_tokens e ++ more_tokens es).
  change (parse_tokens (PObjNext ps stk) (TComma :: member_tokens e ++ more_tokens es))
    with (parse_tokens (PKey ps stk) (member_tokens e ++ more_tokens es)).
  rewrite parse_member; [|exact Hp|].
  - rewrite (IH _ Hps Hn'). reflexivity.
  - intros n Hv. apply (Hn (fst e) n). left. destruct e. simpl in *. now subst.
Qed.

Lemma filter_all {A : Type} (f : A -> bool) (l : list A) :
  forallb f (filter f l) = true.
Proof.
  induction l as [|a l IH]; [reflexivity|]. simpl.
  destruct (f a) eqn:E; simpl; [now rewrite E|exact IH].
Qed.

(** [JSON.parse] reads back what [JSON.stringify(obj, null, 2)] prints. *)
Lemma JSON_parse_stringify_object2 (ps : props (scalar number)) :
  wf_props ps -> numbers_round_trip ps ->
  JSON_parse (JSON_stringify_object2 ps) = Some (VObj (printed_entries ps)).
Proof.
  intros Hwf Hn. rewrite JSON_stringify_object2_shape.
  assert (Hwf' : wf_props (printed_entries ps)).
  { unfold wf_props. rewrite keys_printed_entries. now apply wf_props_filter. }
  assert (Hn' : numbers_round_trip (filter is_printed ps)).
  { intros k n Hin. apply (Hn k n). now apply filter_In in Hin as [Hin _]. }
  pose proof (filter_all is_printed ps) as Hall.
  unfold printed_entries in *.
  destruct (filter is_printed ps) as [|e es]; [reflexivity|].
  simpl in Hall. apply andb_true_iff in Hall as [Hp Hps].
  assert (Hne : numbers_round_trip es).
  { intros k n Hin. apply (Hn' k n). now right. }
  assert (Hnh : forall n, snd e = SNum n -> isFinite n = true -> number_round_trips n).
  { intros n Hv. apply (Hn' (fst e) n). left. destruct e. simpl in *. now subst. }
  unfold JSON_parse. do 4 lex_one. rewrite !option_map_app_nil.
  destruct (more_text_head es) as (c & rest & E & Hc). rewrite E.
  rewrite lex_member; [|exact Hp|exact Hnh|exact Hc].
  rewrite <- E, lex_more; [|exact Hps|exact Hne].
  cbn [option_map app].
  change (parse_tokens (PValue []) (TLBrace :: member_tokens e ++ more_tokens es))
    with (parse_tokens (PKey [] []) (member_tokens e ++ more_tokens es)).
  rewrite parse_member; [|exact Hp|exact Hnh].
  rewrite parse_more; [|exact Hps|exact Hne].
  cbn [reduce]. f_equal. f_equal.
  change (define_all ?l (define_own ?k ?v []))
    with (define_all ((k, v) :: l) []).
  now apply define_all_fresh.
Qed.

Lemma rows_object_wf (rows : list (NodeRow number)) : wf_props (own (rows_object rows)).
Proof.
  unfold rows_object.
  assert (H : forall o, wf_props (own o) -> wf_props (own (fold_left add_row rows o))).
  { induction rows as [|r rows IH]; intros o Ho; [exact Ho|].
    simpl. apply IH. now apply add_row_wf. }
  apply H. apply wf_props_nil.
Qed.

Lemma JSON_parse_normalizeNodeData (rows : list (NodeRow number)) :
  (forall row, rows = [row] -> truthy_key (key row) = true) ->
  (forall r n, In r rows -> is_container r = false -> value_ r = SNum n ->
               isFinite n = true -> number_round_trips n) ->
  JSON_parse (normalizeNodeData (Some rows))
  = Some (VObj (printed_entries (own (rows_object rows)))).
Proof.
  intros Hk Hn.
  assert (E : normalizeNodeData (Some rows) = JSON_stringify_object2 (own (rows_object rows))).
  { destruct rows as [|r [|r' rows]]; [reflexivity| |reflexivity].
    unfold normalizeNodeData. now rewrite (Hk r eq_refl). }
  rewrite E. apply JSON_parse_stringify_object2; [apply rows_object_wf|].
  intros k n Hin Hf.
  apply (lookup_In_wf _ _ _ (rows_object_wf rows)) in Hin.
  unfold rows_object in Hin.
  apply fold_add_row_entries in Hin as [Hin|(r & Hr & _ & Hv & Hc)];
    [discriminate| |apply wf_props_nil].
  exact (Hn r n Hr Hc Hv Hf).
Qed.

(** Every printed entry comes from a row that is no container and has
    that key and a value that is not [undefined]. *)
Lemma printed_entries_rows (rows : list (NodeRow number)) (k : jstr) (v : val R) :
  In (k, v) (printed_entries (own (rows_object rows))) ->
  exists r, In r rows /\ is_container r = false /\ key r = Some k /\
            value_ r <> SUndef /\ v = printed_val (value_ r).
Proof.
  unfold printed_entries. intros Hin.
  apply in_map_iff in Hin as ([k' u] & [= <- <-] & Hin).
  apply filter_In in Hin as [Hin Hp].
  apply (lookup_In_wf _ _ _ (rows_object_wf rows)) in Hin.
  unfold rows_object in Hin.
  apply fold_add_row_entries in Hin as [Hin|(r & Hr & Hkey & Hv & Hc)];
    [discriminate| |apply wf_props_nil].
  exists r. repeat split; auto.
  - rewrite Hv. intros ->. discriminate Hp.
  - now rewrite Hv.
Qed.

(** The buffer that opening a node fills in is JSON, unless the node is a
    single row without a key: [JSON.parse] accepts it and gives the object
    of the rows that were printed, so the edit parser takes its first
    branch and gives that object. *)
Theorem edit_buffer_round_trip (rows : list (NodeRow number)) :
  (forall row, rows = [row] -> truthy_key (key row) = true) ->
  (forall r n, In r rows -> is_container r = false -> value_ r = SNum n ->
               isFinite n = true -> number_round_trips n) ->
  JSON_parse (normalizeNodeData (Some rows))
  = Some (VObj (printed_entries (own (rows_object rows)))) /\
  EditParser (normalizeNodeData (Some rows))
  = VObj (printed_entries (own (rows_object rows))).
Proof.
  intros Hk Hn. pose proof (JSON_parse_normalizeNodeData rows Hk Hn) as P.
  split; [exact P|]. unfold EditParser. now rewrite P.
Qed.

(** Edit followed by Save with the buffer untouched writes back the
    object that the document has at the path of the node, with the
    entries that the rows do not show (the nested objects and arrays):
    when every row shown agrees with the entry of that object under its
    key, the value handed to the patcher is the object itself. *)
Theorem save_unchanged_writes_existing
    (w : World R) (nodeData : NodeData number) (doc : val R) (ex : props (val R)) :
  selectedNode w = Some nodeData ->
  (forall row, text nodeData = [row] -> truthy_key (key row) = true) ->
  (forall r n, In r (text nodeData) -> is_container r = false -> value_ r = SNum n ->
               isFinite n = true -> number_round_trips n) ->
  JSON_parse (json w) = Some doc ->
  getAtPath doc (node_path nodeData) = Some (VObj ex) ->
  wf_props ex ->
  (forall r k, In r (text nodeData) -> is_container r = false -> key r = Some k ->
               value_ r <> SUndef -> lookup k ex = Some (printed_val (value_ r))) ->
  valueToWrite (handleEdit w) nodeData = VObj ex.
Proof.
  intros Hsel Hk Hn HD HP Hwf Hagree.
  unfold valueToWrite, handleEdit. rewrite Hsel.
  cbn [json editedText setEditing setEditedText].
  unfold EditParser. rewrite (JSON_parse_normalizeNodeData _ Hk Hn).
  unfold MergeResolver. rewrite HD, HP.
  cbn [isObject andb]. unfold spread2. cbn [own_enumerable].
  rewrite (define_all_fresh ex []) by exact Hwf. cbn [app].
  f_equal. unfold define_all.
  assert (Hsame : forall k v, In (k, v) (printed_entries (own (rows_object (text nodeData)))) ->
                              lookup k ex = Some v).
  { intros k v Hin.
    apply printed_entries_rows in Hin as (r & Hr & Hc & Hkey & Hu & ->).
    now apply (Hagree r k). }
  induction (printed_entries (own (rows_object (text nodeData)))) as [|[k v] c IH];
    [reflexivity|].
  simpl. rewrite define_own_same; [|exact Hwf|apply Hsame; now left].
  apply IH. intros k' v' Hin. apply Hsame. now right.
Qed.
End RoundTrip.

Lemma edit_buffer_round_trip_witness :
  JSON_parse (normalizeNodeData (Some Example.rows_abc))
  = Some (VObj (printed_entries (own (rows_object Example.rows_abc)))) /\
  EditParser (normalizeNodeData (Some Example.rows_abc))
  = VObj (printed_entries (own (rows_object Example.rows_abc))).
Proof.
  apply (edit_buffer_round_trip (R := Example.runtime) Example.rows_abc).
  - intros row H. discriminate H.
  - intros r n [<-|[<-|[<-|[<-|[]]]]] Hc Hv Hf; try discriminate.
    + injection Hv as <-. split; reflexivity.
    + injection Hv as <-. split; reflexivity.
Defined.

(** The node [{"a": 1, "kids": [2]}] shows the row [a]; Edit and then Save
    write the whole object back, [kids] included. *)
Lemma save_unchanged_writes_existing_witness :
  valueToWrite
    (handleEdit
       (mkWorld (R := Example.runtime) (jtext "{'a': 1, 'kids': [2]}")
          (jtext "{'a': 1, 'kids': [2]}") false [] 
          (Some (mkNode (str "1")
                   [mkRow (Some (str "a")) (SNum (Example.DFin 1 0)) (str "number");
                    mkRow (Some (str "kids")) SUndef (str "array")]
                   (Some [])))
          true false [] None []))
    (mkNode (str "1")
       [mkRow (Some (str "a")) (SNum (Example.DFin 1 0)) (str "number");
        mkRow (Some (str "kids")) SUndef (str "array")]
       (Some []))
  = VObj [(str "a", Example.int 1); (str "kids", VArr [Example.int 2])].
Proof.
  apply (save_unchanged_writes_existing (R := Example.runtime) _ _
           (VObj [(str "a", Example.int 1); (str "kids", VArr [Example.int 2])])).
  - reflexivity.
  - intros row H. discriminate H.
  - intros r n [<-|[<-|[]]] Hc Hv Hf; try discriminate.
    injection Hv as <-. split; reflexivity.
  - reflexivity.
  - reflexivity.
  - repeat constructor. intros H. discriminate H.
  - intros r k [<-|[<-|[]]] Hc Hkey Hu; try discriminate.
    injection Hkey as <-. reflexivity.
Defined.
